(** * The memory subsystem of the Differentiable Neural Computer (model.py)

    A shallow embedding of [class DNC] and of the TensorFlow primitives it
    calls.  float32 tensors are idealised as lists of real numbers: a rank-1
    tensor, a [1,n] row and an [n,1] column are all a [vec]; a rank-2 tensor
    is a row-major [matrix].  A tensor function that raises on ill-shaped
    arguments has the result [None]; a method that raises hands back the
    object as it stands at the raise, with the exception. *)

From Stdlib Require Import Reals Lra Lia List Arith Bool Permutation Sorted.
Import ListNotations.
Open Scope R_scope.

Definition vec := list R.
Definition matrix := list vec.

(** A small error monad: an operation on ill-shaped tensors raises. *)
Definition bind {A B : Type} (m : option A) (f : A -> option B) : option B :=
  match m with
  | Some a => f a
  | None => None
  end.

Notation "x <- m ;; k" := (bind m (fun x => k))
  (at level 61, m at next level, right associativity).

Fixpoint mapM {A B : Type} (f : A -> option B) (l : list A) : option (list B) :=
  match l with
  | [] => Some []
  | a :: l' => b <- f a ;; bs <- mapM f l' ;; Some (b :: bs)
  end.

(** ** TensorFlow primitives used by the model *)
Module Tf.

Definition sum (v : vec) : R := fold_right Rplus 0 v.
Definition prod (v : vec) : R := fold_right Rmult 1 v.

Definition zeros (n : nat) : vec := repeat 0 n.
Definition fill (n : nat) (x : R) : vec := repeat x n.
Definition zeros2 (n m : nat) : matrix := repeat (zeros m) n.
Definition fill2 (n m : nat) (x : R) : matrix := repeat (fill m x) n.

Definition scale (c : R) (v : vec) : vec := map (fun x => x * c) v.

(** Elementwise addition of two rank-1 tensors of one shape. *)
Fixpoint add (a b : vec) : vec :=
  match a, b with
  | x :: a', y :: b' => (x + y) :: add a' b'
  | _, _ => []
  end.

(** [tf.nn.top_k] on one row: the entries in descending order with the
    indices they came from; of two equal entries the one of lower index
    comes first.  [insert_desc] keeps [p] in front of the entries that
    are not larger than it. *)
Fixpoint insert_desc (p : R * nat) (l : list (R * nat)) : list (R * nat) :=
  match l with
  | [] => [p]
  | q :: l' =>
      if Rlt_dec (fst p) (fst q) then q :: insert_desc p l'
      else p :: q :: l'
  end.

Definition sort_desc (l : list (R * nat)) : list (R * nat) :=
  fold_right insert_desc [] l.

Definition top_k (row : vec) (k : nat) : option (vec * list nat) :=
  if k <=? length row then
    let sorted := firstn k (sort_desc (combine row (seq 0 (length row)))) in
    Some (map fst sorted, map snd sorted)
  else None.

(** [tf.cumprod(v, exclusive=True)]. *)
Fixpoint cumprod_from (acc : R) (v : vec) : vec :=
  match v with
  | [] => []
  | x :: v' => acc :: cumprod_from (acc * x) v'
  end.

Definition cumprod_exclusive (v : vec) : vec := cumprod_from 1 v.

(** Row [idx] of the n x n identity: [tf.slice(I, [idx, 0], [1, -1])]. *)
Definition identity_row (n idx : nat) : option vec :=
  if idx <? n then Some (map (fun j => if j =? idx then 1 else 0) (seq 0 n))
  else None.

Definition softplus (x : R) : R := ln (1 + exp x).
Definition sigmoid (x : R) : R := 1 / (1 + exp (- x)).

(** [tf.nn.l2_normalize(x, 1)] on one row, with its default epsilon. *)
Definition epsilon : R := 1 / 1000000000000.
Definition l2_normalize (v : vec) : vec :=
  let n := sqrt (Rmax (sum (map (fun x => x * x) v)) epsilon) in
  map (fun x => x / n) v.

Fixpoint dot (a b : vec) : option R :=
  match a, b with
  | [], [] => Some 0
  | x :: a', y :: b' => r <- dot a' b' ;; Some (x * y + r)
  | _, _ => None
  end.

(** [tf.matmul(a, b, transpose_b=True)]. *)
Definition matmul_transpose_b (a b : matrix) : option matrix :=
  mapM (fun ra => mapM (fun rb => dot ra rb) b) a.

(** [tf.matmul] of a [1,n] row with an [n,m] matrix. *)
Definition same_length (m : matrix) : bool :=
  match m with
  | [] => true
  | r :: m' => forallb (fun r' => length r' =? length r) m'
  end.

Fixpoint vecmat_rows (h : vec) (m : matrix) (acc : vec) : vec :=
  match h, m with
  | x :: h', r :: m' => vecmat_rows h' m' (add acc (scale x r))
  | _, _ => acc
  end.

Definition matmul_row (h : vec) (m : matrix) : option vec :=
  if (length h =? length m) && same_length m
  then Some (vecmat_rows h m (zeros (length (hd [] m))))
  else None.

(** Multiplication of a row of [sim] with the [1,K] strength tensor, with
    NumPy broadcasting of a dimension of size one. *)
Definition broadcast_mul (row strength : vec) : option vec :=
  if length row =? length strength then
    Some (map (fun p => fst p * snd p) (combine row strength))
  else match strength, row with
       | [b], _ => Some (map (fun x => x * b) row)
       | _, [x] => Some (map (fun b => x * b) strength)
       | _, _ => None
       end.

Definition column (j : nat) (m : matrix) : vec := map (fun r => nth j r 0) m.

(** [tf.nn.softmax(x, 0)]: exp(x) / reduce_sum(exp(x), 0). *)
Definition softmax_axis0 (x : matrix) : matrix :=
  let e := map (map exp) x in
  map (fun row =>
         map (fun p => snd p / sum (column (fst p) e))
             (combine (seq 0 (length row)) row)) e.

(** [tf.dynamic_partition(data, partitions, num)] on a [1,I] tensor: output
    [i] holds, in order, the entries whose partition index is [i]. *)
Definition dynamic_partition (data : vec) (partitions : list nat) (num : nat)
  : option (list vec) :=
  if (length data =? length partitions)
     && forallb (fun p => p <? num) partitions
  then Some (map (fun i =>
                    map fst (filter (fun dp => snd dp =? i)
                                    (combine data partitions)))
                 (seq 0 num))
  else None.

(** [tf.reshape(v, [rows, cols])]. *)
Fixpoint chunks (rows cols : nat) (v : vec) : matrix :=
  match rows with
  | O => []
  | S rows' => firstn cols v :: chunks rows' cols (skipn cols v)
  end.

Definition reshape2 (v : vec) (rows cols : nat) : option matrix :=
  if length v =? (rows * cols)%nat then Some (chunks rows cols v) else None.

Definition reshape1 (v : vec) (n : nat) : option vec :=
  if length v =? n then Some v else None.

End Tf.

(** ** The state of a DNC object

    An object on which every attribute that the methods read is set, named
    as in [__init__].  [self.R] is the field [R_], since [R] names the real
    numbers.  [usage], [W_precedence] and [W_write] are [N,1]
    columns; [output], [interface], [h] and [c] are [1,n] rows.  [output] is
    the Keras property of that name, which the source tries to assign and no
    method reads. *)
Record DNC : Type := mkDNC {
  output_dim : nat;
  N : nat;
  W : nat;
  R_ : nat;
  interface_dim : nat;
  controller_dim : nat;
  output : vec;
  interface : vec;
  M : matrix;
  usage : vec;
  L : matrix;
  W_precedence : vec;
  W_read : matrix;
  W_write : vec;
  read_v : matrix;
  h : vec;
  c : vec;
  W_output : matrix;
  W_interface : matrix;
  W_read_out : matrix
}.

(** The seven draws of [tf.truncated_normal] made by [__init__], in the
    order of the source. *)
Record Draws : Type := mkDraws {
  draw_output : vec;
  draw_interface : vec;
  draw_h : vec;
  draw_c : vec;
  draw_W_output : matrix;
  draw_W_interface : matrix;
  draw_W_read_out : matrix
}.

(** ** Exceptions, and the object under construction *)
Inductive exn : Type :=
| AttributeError : exn
| TypeError : exn
| ValueError : exn.

(** The attribute names that [__init__] assigns, in the order of the source. *)
Inductive attribute : Type :=
| a_output_dim | a_N | a_W | a_R | a_interface_dim | a_controller_dim
| a_output | a_interface | a_M | a_usage | a_L | a_W_precedence
| a_W_read | a_W_write | a_read_v | a_h | a_c
| a_W_output | a_W_interface | a_W_read_out.

Inductive attr_value : Type :=
| AInt : nat -> attr_value
| AVec : vec -> attr_value
| ATensor : matrix -> attr_value.

Definition attribute_eq_dec : forall a b : attribute, {a = b} + {a <> b}.
Proof. decide equality. Defined.

(** The instance attributes of an object, latest assignment last. *)
Definition attributes : Type := list (attribute * attr_value).

Fixpoint getattr (o : attributes) (a : attribute) : option attr_value :=
  match o with
  | [] => None
  | (b, v) :: o' =>
      match getattr o' a with
      | Some v' => Some v'
      | None => if attribute_eq_dec a b then Some v else None
      end
  end.

Module Keras.

(** [tf.keras.Model] declares [output] as a property without a setter; of
    the names the source assigns it is the one that meets such a property. *)
Definition read_only (a : attribute) : bool :=
  match a with
  | a_output => true
  | _ => false
  end.

(** [self.a = v] on a [tf.keras.Model]. *)
Definition setattr (o : attributes) (a : attribute) (v : attr_value)
  : attributes * (exn + unit) :=
  if read_only a then (o, inl AttributeError)
  else (filter (fun bv => if attribute_eq_dec (fst bv) a then false else true) o
          ++ [(a, v)], inr tt).

(** The keyword arguments given to a layer when it is called. *)
Inductive kwarg : Type :=
| kw_axis : nat -> kwarg.

Fixpoint join_rows (a b : matrix) : matrix :=
  match a, b with
  | r :: a', r' :: b' => (r ++ r') :: join_rows a' b'
  | _, _ => []
  end.

(** [Concatenate()(inputs, **kwargs)] on rank-2 inputs.  The layer is built
    with its default axis, the last one: the inputs must agree in their
    number of rows, or building raises ValueError.  Its [call] takes the
    inputs and no keyword, so any keyword raises TypeError. *)
Definition Concatenate_call (inputs : list matrix) (kwargs : list kwarg)
  : exn + matrix :=
  match inputs with
  | [] => inl ValueError
  | m :: ms =>
      if forallb (fun m' => length m' =? length m) ms then
        match kwargs with
        | [] => inr (fold_left join_rows ms m)
        | _ :: _ => inl TypeError
        end
      else inl ValueError
  end.

End Keras.

(** The statements of [__init__] that assign an attribute, in order. *)
Definition init_assignments (Y : nat) (memory_shape : nat * nat)
  (n_read : nat) (rnd : Draws) : list (attribute * attr_value) :=
  let (n, w) := memory_shape in
  let i := (n_read * w + 3 * w + 5 * n_read + 3)%nat in
  [ (a_output_dim, AInt Y);
    (a_N, AInt n);
    (a_W, AInt w);
    (a_R, AInt n_read);
    (a_interface_dim, AInt i);
    (a_controller_dim, AInt (Y + i));
    (a_output, AVec (draw_output rnd));
    (a_interface, AVec (draw_interface rnd));
    (a_M, ATensor (Tf.zeros2 n w));
    (a_usage, AVec (Tf.fill n (1 / 1000000)));
    (a_L, ATensor (Tf.zeros2 n n));
    (a_W_precedence, AVec (Tf.zeros n));
    (a_W_read, ATensor (Tf.fill2 n n_read (1 / 1000000)));
    (a_W_write, AVec (Tf.fill n (1 / 1000000)));
    (a_read_v, ATensor (Tf.fill2 n_read w (1 / 1000000)));
    (a_h, AVec (draw_h rnd));
    (a_c, AVec (draw_c rnd));
    (a_W_output, ATensor (draw_W_output rnd));
    (a_W_interface, ATensor (draw_W_interface rnd));
    (a_W_read_out, ATensor (draw_W_read_out rnd)) ].

(** The assignments run in order; the first one that raises ends the
    constructor. *)
Fixpoint assign_all (o : attributes) (l : list (attribute * attr_value))
  : attributes * (exn + unit) :=
  match l with
  | [] => (o, inr tt)
  | (a, v) :: l' =>
      match Keras.setattr o a v with
      | (o', inl e) => (o', inl e)
      | (o', inr _) => assign_all o' l'
      end
  end.

Definition init (Y : nat) (memory_shape : nat * nat) (n_read : nat)
  (rnd : Draws) : attributes * (exn + unit) :=
  assign_all [] (init_assignments Y memory_shape n_read rnd).

(** ** content_lookup *)
Definition content_lookup (s : DNC) (key : matrix) (strength : vec)
  : option matrix :=
  let norm_mem := map Tf.l2_normalize (M s) in
  let norm_key := map Tf.l2_normalize key in
  sim <- Tf.matmul_transpose_b norm_mem norm_key ;;
  scaled <- mapM (fun row => Tf.broadcast_mul row strength) sim ;;
  Some (Tf.softmax_axis0 scaled).

(** ** allocation_weighting *)

(** The loop over [enumerate(tf.unstack(free_list[0]))]. *)
Fixpoint alloc_loop (n : nat) (unorder : vec) (pos : nat)
  (free_list : list nat) (alloc_weights : vec) : option vec :=
  match free_list with
  | [] => Some alloc_weights
  | idx :: rest =>
      m <- Tf.identity_row n idx ;;
      alloc_loop n unorder (S pos) rest
        (Tf.add alloc_weights (Tf.scale (nth pos unorder 0) m))
  end.

Definition allocation_weighting (s : DNC) : option vec :=
  top <- Tf.top_k (map (fun x => -1 * x) (usage s)) (N s) ;;
  let (neg_sorted, free_list) := top in
  let sorted_usage_vec := map (fun x => x * -1) neg_sorted in
  let cumprod := Tf.cumprod_exclusive sorted_usage_vec in
  let unorder :=
    map (fun p => (1 - fst p) * snd p) (combine sorted_usage_vec cumprod) in
  alloc_weights <- alloc_loop (N s) unorder 0 free_list (Tf.zeros (N s)) ;;
  Tf.reshape1 alloc_weights (N s).

(** The free list and the sorted usage vector that [allocation_weighting]
    works with. *)
Definition free_list_of (u : vec) : list nat :=
  map snd (Tf.sort_desc (combine (map (fun x => -1 * x) u) (seq 0 (length u)))).

Definition sorted_usage_of (u : vec) : vec :=
  map (fun x => x * -1)
      (map fst (Tf.sort_desc (combine (map (fun x => -1 * x) u)
                                      (seq 0 (length u))))).

(** The allocation weighting in the words of the specification: [free] is a
    permutation of the row indices that sorts [u] in ascending order, and the
    weight scattered to row [free[k]] is
    (1 - sorted_u[k]) * prod_(i<k) sorted_u[i]. *)
Definition sorted_by (u : vec) (free : list nat) : vec :=
  map (fun i => nth i u 0) free.

Definition exclusive_cumprod_at (sorted_u : vec) (k : nat) : R :=
  Tf.prod (firstn k sorted_u).

Definition allocation_spec (u : vec) (free : list nat) (a : vec) : Prop :=
  Permutation free (seq 0 (length u)) /\
  StronglySorted Rle (sorted_by u free) /\
  length a = length u /\
  forall k, (k < length u)%nat ->
    nth (nth k free 0%nat) a 0 =
    (1 - nth k (sorted_by u free) 0) * exclusive_cumprod_at (sorted_by u free) k.

(** ** partition_interface *)

(** The ten tensors returned by [partition_interface]. *)
Record Partition : Type := mkPartition {
  k_read : matrix;
  b_read : vec;
  k_write : vec;
  b_write : vec;
  erase : vec;
  write_v : vec;
  free_gates : vec;
  alloc_gate : vec;
  write_gate : vec;
  read_modes : matrix
}.

Definition partition_indices (s : DNC) : list nat :=
  repeat 0%nat (R_ s * W s) ++ repeat 1%nat (R_ s) ++
  repeat 2%nat (W s) ++ [3%nat] ++ repeat 4%nat (W s) ++ repeat 5%nat (W s) ++
  repeat 6%nat (R_ s) ++ [7%nat] ++ [8%nat] ++ repeat 9%nat (R_ s * 3).

Definition partition_interface (s : DNC) : option Partition :=
  parts <- Tf.dynamic_partition (interface s) (partition_indices s) 10 ;;
  match parts with
  | [p0; p1; p2; p3; p4; p5; p6; p7; p8; p9] =>
      k_read' <- Tf.reshape2 p0 (R_ s) (W s) ;;
      let b_read' := map (fun x => 1 + Tf.softplus x) p1 in
      let k_write' := p2 in
      let b_write' := map (fun x => 1 + Tf.softplus x) p3 in
      let erase' := map Tf.sigmoid p4 in
      let write_v' := p5 in
      let free_gates' := map Tf.sigmoid p6 in
      alloc_gate' <- Tf.reshape1 (map Tf.sigmoid p7) 1 ;;
      write_gate' <- Tf.reshape1 (map Tf.sigmoid p8) 1 ;;
      read_modes' <- Tf.reshape2 p9 3 (R_ s) ;;
      Some {| k_read := k_read';
              b_read := b_read';
              k_write := k_write';
              b_write := b_write';
              erase := erase';
              write_v := write_v';
              free_gates := free_gates';
              alloc_gate := alloc_gate';
              write_gate := write_gate';
              read_modes := Tf.softmax_axis0 read_modes' |}
  | _ => None
  end.

(** The contiguous field of [len] entries that starts at offset [off]. *)
Definition field (off len : nat) (v : vec) : vec := firstn len (skipn off v).

(** ** write, read *)

(** Both bodies are [pass]: the object is left as it is. *)
Definition write (s : DNC) : DNC := s.
Definition read (s : DNC) : DNC := s.

(** What a Python call hands back. *)
Inductive value : Type :=
| PyNone : value
| PyTensor : matrix -> value.

(** ** controller, call

    A method that can raise is a function from the object to the object as
    the method leaves it and either the exception or the value. *)
Definition exec (A : Type) : Type := DNC -> DNC * (exn + A).

Definition ret {A : Type} (a : A) : exec A := fun s => (s, inr a).
Definition raise {A : Type} (e : exn) : exec A := fun s => (s, inl e).
Definition get : exec DNC := fun s => (s, inr s).
Definition put (s' : DNC) : exec unit := fun _ => (s', inr tt).

Definition bind_exec {A B : Type} (m : exec A) (f : A -> exec B) : exec B :=
  fun s =>
    match m s with
    | (s', inl e) => (s', inl e)
    | (s', inr a) => f a s'
    end.

Notation "x <~ m ;; k" := (bind_exec m (fun x => k))
  (at level 61, m at next level, right associativity).

(** A tensor operation inside a method: no value is the exception [e]. *)
Definition lift {A : Type} (e : exn) (o : option A) : exec A :=
  match o with
  | Some a => ret a
  | None => raise e
  end.

Definition lift_result {A : Type} (r : exn + A) : exec A :=
  match r with
  | inl e => raise e
  | inr a => ret a
  end.

Definition set_state (s : DNC) (h' c' : vec) : DNC :=
  {| output_dim := output_dim s; N := N s; W := W s; R_ := R_ s;
     interface_dim := interface_dim s; controller_dim := controller_dim s;
     output := output s; interface := interface s;
     M := M s; usage := usage s; L := L s;
     W_precedence := W_precedence s; W_read := W_read s;
     W_write := W_write s; read_v := read_v s;
     h := h'; c := c';
     W_output := W_output s; W_interface := W_interface s;
     W_read_out := W_read_out s |}.

Definition set_output (s : DNC) (o : vec) : DNC :=
  {| output_dim := output_dim s; N := N s; W := W s; R_ := R_ s;
     interface_dim := interface_dim s; controller_dim := controller_dim s;
     output := o; interface := interface s;
     M := M s; usage := usage s; L := L s;
     W_precedence := W_precedence s; W_read := W_read s;
     W_write := W_write s; read_v := read_v s;
     h := h s; c := c s;
     W_output := W_output s; W_interface := W_interface s;
     W_read_out := W_read_out s |}.

Definition set_interface (s : DNC) (i : vec) : DNC :=
  {| output_dim := output_dim s; N := N s; W := W s; R_ := R_ s;
     interface_dim := interface_dim s; controller_dim := controller_dim s;
     output := output s; interface := i;
     M := M s; usage := usage s; L := L s;
     W_precedence := W_precedence s; W_read := W_read s;
     W_write := W_write s; read_v := read_v s;
     h := h s; c := c s;
     W_output := W_output s; W_interface := W_interface s;
     W_read_out := W_read_out s |}.

(** [self.output = o]: the assignment meets the read-only property. *)
Definition assign_output (o : vec) : exec unit :=
  if Keras.read_only a_output then raise AttributeError
  else fun s => (set_output s o, inr tt).

(** The Keras layers [Dense] and [LSTM] are collaborators of the model:
    [Dense units x] is the output row of a dense layer on the flattened
    input, [LSTM units xs (h, c)] the output and the final state of the
    recurrent layer on the sequence [xs]. *)
Section Controller.

Variable Dense : nat -> vec -> vec.
Variable LSTM : nat -> matrix -> vec * vec -> vec * vec * vec.

Definition controller (x : vec) : exec unit :=
  s <~ get ;;
  let x1 := Dense (W s) x in
  x_in <~ lift_result
            (Keras.Concatenate_call [[x1]; read_v s] [Keras.kw_axis 0]) ;;
  let '(_, h', c') := LSTM (controller_dim s) x_in (h s, c s) in
  put (set_state s h' c').

Definition call (x : vec) : exec value :=
  _ <~ controller x ;;
  s1 <~ get ;;
  o <~ lift ValueError (Tf.matmul_row (h s1) (W_output s1)) ;;
  _ <~ assign_output o ;;
  s2 <~ get ;;
  i <~ lift ValueError (Tf.matmul_row (h s2) (W_interface s2)) ;;
  _ <~ put (set_interface s2 i) ;;
  s3 <~ get ;;
  _ <~ lift ValueError (partition_interface s3) ;;
  _ <~ (fun s => (write s, inr tt)) ;;
  _ <~ (fun s => (read s, inr tt)) ;;
  ret PyNone.

End Controller.

Definition has_shape (m : matrix) (rows cols : nat) : Prop :=
  length m = rows /\ Forall (fun r => length r = cols) m.

Definition one_hot (n k : nat) : vec :=
  map (fun j => if j =? k then 1 else 0) (seq 0 n).

(** A sample object that has every attribute, with the values that the
    statements of [__init__] name for output_dim 1, memory_shape (2, 1),
    n_read 1 and zero draws; and sample collaborators. *)
Definition sample : DNC :=
  {| output_dim := 1; N := 2; W := 1; R_ := 1;
     interface_dim := 12; controller_dim := 13;
     output := Tf.zeros 1;
     interface := Tf.zeros 12;
     M := Tf.zeros2 2 1;
     usage := Tf.fill 2 (1 / 1000000);
     L := Tf.zeros2 2 2;
     W_precedence := Tf.zeros 2;
     W_read := Tf.fill2 2 1 (1 / 1000000);
     W_write := Tf.fill 2 (1 / 1000000);
     read_v := Tf.fill2 1 1 (1 / 1000000);
     h := Tf.zeros 13;
     c := Tf.zeros 13;
     W_output := Tf.zeros2 13 1;
     W_interface := Tf.zeros2 13 12;
     W_read_out := Tf.zeros2 1 1 |}.

Definition sample_draws : Draws :=
  {| draw_output := Tf.zeros 1;
     draw_interface := Tf.zeros 12;
     draw_h := Tf.zeros 13;
     draw_c := Tf.zeros 13;
     draw_W_output := Tf.zeros2 13 1;
     draw_W_interface := Tf.zeros2 13 12;
     draw_W_read_out := Tf.zeros2 1 1 |}.

Definition sample_Dense (units : nat) (x : vec) : vec := Tf.zeros units.

Definition sample_LSTM (units : nat) (xs : matrix) (st : vec * vec)
  : vec * vec * vec :=
  (Tf.zeros units, Tf.zeros units, Tf.zeros units).

(** [s] with the memory, the usage column and the write weighting replaced. *)
Definition with_memory (s : DNC) (m : matrix) (u w_w : vec) : DNC :=
  {| output_dim := output_dim s; N := N s; W := W s; R_ := R_ s;
     interface_dim := interface_dim s; controller_dim := controller_dim s;
     output := output s; interface := interface s;
     M := m; usage := u; L := L s;
     W_precedence := W_precedence s; W_read := W_read s;
     W_write := w_w; read_v := read_v s;
     h := h s; c := c s;
     W_output := W_output s; W_interface := W_interface s;
     W_read_out := W_read_out s |}.

(** A sample object with usage 1/2 and 1/4, and one whose write weighting is
    one-hot on row 0. *)
Definition used_sample : DNC :=
  with_memory sample (M sample) [1 / 2; 1 / 4] (W_write sample).

Definition one_hot_sample : DNC :=
  with_memory sample (M sample) (usage sample) (one_hot 2 0).

(** The round trip that the specification asks of the write step: row [k]
    of the memory becomes [v], every other row stays.  The erase vector and
    the write vector are locals of [call] that [write] never receives, so
    the step is [write s] whatever they are. *)
Definition write_round_trip (s : DNC) (k : nat) (v : vec) : Prop :=
  nth k (M (write s)) [] = v /\
  forall j, j <> k -> nth j (M (write s)) [] = nth j (M s) [].

(** What the entries of [unorder] from position [pos] on add to row [j] in
    the loop of [allocation_weighting]. *)
Fixpoint contribution (unorder : vec) (pos : nat) (free_list : list nat)
  (j : nat) : R :=
  match free_list with
  | [] => 0
  | idx :: rest =>
      (if j =? idx then nth pos unorder 0 else 0)
      + contribution unorder (S pos) rest j
  end.

Fixpoint range_sum (v : vec) (pos len : nat) : R :=
  match len with
  | O => 0
  | S len' => nth pos v 0 + range_sum v (S pos) len'
  end.

Definition desc (p q : R * nat) : Prop := fst q <= fst p.

Definition in_unit (x : R) : Prop := 0 <= x <= 1.

(** The negated usage row paired with its row indices, as [top_k] sorts it,
    and the exponentials that [softmax] normalises. *)
Definition usage_pairs (u : vec) : list (R * nat) :=
  combine (map (fun x => -1 * x) u) (seq 0 (length u)).

Definition exps (x : matrix) : matrix := map (map exp) x.

Ltac real_cases :=
  repeat match goal with
         | |- context [Rlt_dec ?a ?b] => destruct (Rlt_dec a b); try lra
         end.

Ltac vec_eq := apply f_equal; repeat (apply f_equal2; [lra|]); reflexivity.

(** [unorder] of the source, for a cumulative product that starts at [acc]. *)
Definition unorder_of (sorted : vec) (acc : R) : vec :=
  map (fun p => (1 - fst p) * snd p) (combine sorted (Tf.cumprod_from acc sorted)).

(** An interface row cut into consecutive segments, each with its partition
    index. *)
Definition seg_data (segs : list (nat * vec)) : vec := concat (map snd segs).

Definition seg_parts (segs : list (nat * vec)) : list nat :=
  concat (map (fun sf => repeat (fst sf) (length (snd sf))) segs).

Definition selected (j : nat) (data : vec) (parts : list nat) : vec :=
  map fst (filter (fun dp => snd dp =? j) (combine data parts)).

Definition all_zero (v : vec) : Prop := Forall (fun x => x = 0) v.

(** A sample object whose usage column is one row short, and keys that are
    wider than the sample memory. *)
Definition short_sample : DNC :=
  with_memory sample (M sample) [1 / 2] (W_write sample).

Definition wide_key : matrix := [[1; 2]].

(** The first step of [content_lookup]: the matrix [sim] of the source. *)
Definition similarity (s : DNC) (key : matrix) : option matrix :=
  Tf.matmul_transpose_b (map Tf.l2_normalize (M s)) (map Tf.l2_normalize key).

Definition sumsq (v : vec) : R := Tf.sum (map (fun x => x * x) v).

(** A sample object in which both rows have usage 1/2. *)
Definition tie_sample : DNC :=
  with_memory sample (M sample) [1 / 2; 1 / 2] (W_write sample).

(** The reading of "a row with minimal usage receives the largest weight"
    in which it holds of every row of minimal usage. *)
Definition min_usage_rows_largest (s : DNC) : Prop :=
  forall a i, allocation_weighting s = Some a ->
    (i < N s)%nat ->
    (forall j, (j < N s)%nat -> nth i (usage s) 0 <= nth j (usage s) 0) ->
    forall j, (j < N s)%nat -> nth j a 0 <= nth i a 0.

(** [h] is the entry of [l] that a stable descending sort puts first: its
    key is the largest, and among the entries of that key its index is the
    lowest. *)
Definition first_max (h : R * nat) (l : list (R * nat)) : Prop :=
  In h l /\
  forall q, In q l -> fst q <= fst h /\ (fst q = fst h -> (snd h <= snd q)%nat).

Definition rising (p q : R * nat) : Prop := (snd p < snd q)%nat.

(** The range of a sigmoid gate. *)
Definition open_unit (x : R) : Prop := 0 < x < 1.

(** A sample object whose usage is the same in every row, and one with a
    free row and a full row. *)
Definition even_sample : DNC :=
  with_memory sample (M sample) [1 / 4; 1 / 4] (W_write sample).

Definition free_row_sample : DNC :=
  with_memory sample (M sample) [1; 0] (W_write sample).

(* ================================================================= *)
(** * Facts about the tensor primitives *)

Section SortFacts.

Lemma insert_desc_perm p l : Permutation (Tf.insert_desc p l) (p :: l).
Proof.
  induction l as [|q l IH]; simpl; [reflexivity|].
  destruct (Rlt_dec (fst p) (fst q)); [|reflexivity].
  rewrite IH. apply perm_swap.
Qed.

Lemma sort_desc_perm l : Permutation (Tf.sort_desc l) l.
Proof.
  induction l as [|p l IH]; simpl; [reflexivity|].
  rewrite insert_desc_perm. now constructor.
Qed.

Lemma insert_desc_sorted p l :
  StronglySorted desc l -> StronglySorted desc (Tf.insert_desc p l).
Proof.
  induction 1 as [|q l Hs IH Hq]; simpl.
  - repeat constructor.
  - destruct (Rlt_dec (fst p) (fst q)) as [Hlt|Hge].
    + constructor; [exact IH|].
      rewrite insert_desc_perm. constructor; [unfold desc; lra | exact Hq].
    + assert (Hpq : fst q <= fst p) by lra.
      constructor; [now constructor|].
      constructor; [exact Hpq|].
      eapply Forall_impl; [|exact Hq].
      unfold desc; intros a Ha; lra.
Qed.

Lemma sort_desc_sorted l : StronglySorted desc (Tf.sort_desc l).
Proof.
  induction l as [|p l IH]; simpl; [constructor|].
  now apply insert_desc_sorted.
Qed.

Lemma sort_desc_length l : length (Tf.sort_desc l) = length l.
Proof. apply Permutation_length, sort_desc_perm. Qed.

Lemma map_snd_combine_seq (v : vec) k :
  map snd (combine v (seq k (length v))) = seq k (length v).
Proof.
  revert k; induction v as [|x v IH]; intros k; simpl; [reflexivity|].
  now rewrite IH.
Qed.

Lemma combine_seq_nth (v : vec) k :
  Forall (fun p => (k <= snd p)%nat /\ fst p = nth (snd p - k) v 0)
         (combine v (seq k (length v))).
Proof.
  revert k; induction v as [|x v IH]; intros k; simpl; constructor.
  - simpl. rewrite Nat.sub_diag. split; [lia | reflexivity].
  - eapply Forall_impl; [|apply (IH (S k))].
    intros [y i] [Hle Hy]; simpl in *. split; [lia|].
    rewrite Hy. replace (i - k)%nat with (S (i - S k)) by lia. reflexivity.
Qed.

End SortFacts.

Section FreeList.

Variable u : vec.

Lemma free_list_perm : Permutation (free_list_of u) (seq 0 (length u)).
Proof.
  unfold free_list_of.
  rewrite (Permutation_map snd (sort_desc_perm _)).
  rewrite <- (length_map (fun x => -1 * x) u) at 1 2.
  rewrite map_snd_combine_seq, length_map. reflexivity.
Qed.

Lemma free_list_length : length (free_list_of u) = length u.
Proof.
  rewrite (Permutation_length free_list_perm). apply length_seq.
Qed.

Lemma free_list_bound : Forall (fun i => (i < length u)%nat) (free_list_of u).
Proof.
  apply Forall_forall; intros i Hi.
  apply (Permutation_in _ free_list_perm), in_seq in Hi. lia.
Qed.

Lemma free_list_NoDup : NoDup (free_list_of u).
Proof.
  apply (Permutation_NoDup (Permutation_sym free_list_perm)), seq_NoDup.
Qed.

Lemma pairs_lookup :
  Forall (fun p => fst p * -1 = nth (snd p) u 0) (Tf.sort_desc (usage_pairs u)).
Proof.
  apply (Permutation_Forall (Permutation_sym (sort_desc_perm (usage_pairs u)))).
  unfold usage_pairs.
  pose proof (combine_seq_nth (map (fun x => -1 * x) u) 0) as H.
  rewrite length_map in H.
  eapply Forall_impl; [|exact H].
  intros [y i] [_ Hy]; simpl in *.
  rewrite Nat.sub_0_r in Hy. rewrite Hy.
  replace 0 with (-1 * 0) at 1 by lra.
  rewrite map_nth. lra.
Qed.

Lemma sorted_usage_by : sorted_usage_of u = sorted_by u (free_list_of u).
Proof.
  unfold sorted_usage_of, sorted_by, free_list_of. fold (usage_pairs u).
  rewrite !map_map.
  apply map_ext_in; intros p Hp.
  exact (proj1 (Forall_forall _ _) pairs_lookup p Hp).
Qed.

Lemma sorted_usage_sorted : StronglySorted Rle (sorted_usage_of u).
Proof.
  unfold sorted_usage_of. fold (usage_pairs u). rewrite map_map.
  induction (sort_desc_sorted (usage_pairs u)) as [|p l Hs IH Hp]; simpl; constructor.
  - exact IH.
  - apply Forall_map. eapply Forall_impl; [|exact Hp].
    unfold desc; intros q Hq; lra.
Qed.

Lemma sorted_usage_length : length (sorted_usage_of u) = length u.
Proof.
  unfold sorted_usage_of. rewrite !length_map, sort_desc_length.
  rewrite length_combine, length_map, length_seq. apply Nat.min_id.
Qed.

Lemma sorted_usage_range :
  Forall (fun x => 0 <= x <= 1) u ->
  Forall (fun x => 0 <= x <= 1) (sorted_usage_of u).
Proof.
  intros Hu. rewrite sorted_usage_by. unfold sorted_by.
  apply Forall_map, Forall_forall; intros i Hi.
  apply (proj1 (Forall_forall _ _) Hu), nth_In.
  exact (proj1 (Forall_forall _ _) free_list_bound i Hi).
Qed.

End FreeList.

Section Unorder.

Lemma cumprod_from_length acc v : length (Tf.cumprod_from acc v) = length v.
Proof. revert acc; induction v; intros; simpl; auto. Qed.

Lemma unorder_length sorted acc : length (unorder_of sorted acc) = length sorted.
Proof.
  unfold unorder_of.
  rewrite length_map, length_combine, cumprod_from_length. apply Nat.min_id.
Qed.

Lemma unorder_nth sorted : forall acc k, (k < length sorted)%nat ->
  nth k (unorder_of sorted acc) 0 =
  (1 - nth k sorted 0) * (acc * Tf.prod (firstn k sorted)).
Proof.
  induction sorted as [|x v IH]; intros acc k Hk; simpl in *; [lia|].
  destruct k as [|k]; simpl.
  - ring.
  - fold (unorder_of v (acc * x)).
    rewrite IH by lia. ring.
Qed.

(** The sum telescopes. *)
Lemma unorder_sum sorted : forall acc,
  Tf.sum (unorder_of sorted acc) = acc - acc * Tf.prod sorted.
Proof.
  induction sorted as [|x v IH]; intros acc; simpl; [ring|].
  fold (unorder_of v (acc * x)). rewrite IH. ring.
Qed.

Lemma prod_range v :
  Forall (fun x => 0 <= x <= 1) v -> 0 <= Tf.prod v <= 1.
Proof.
  induction 1 as [|x v Hx _ IH]; simpl; [lra|]. nra.
Qed.

Lemma firstn_range k (v : vec) :
  Forall (fun x => 0 <= x <= 1) v ->
  Forall (fun x => 0 <= x <= 1) (firstn k v).
Proof.
  intros Hv. rewrite <- (firstn_skipn k v) in Hv.
  now apply Forall_app in Hv.
Qed.

Lemma unorder_nonneg sorted : forall acc, 0 <= acc ->
  Forall (fun x => 0 <= x <= 1) sorted ->
  Forall (fun x => 0 <= x) (unorder_of sorted acc).
Proof.
  induction sorted as [|x v IH]; intros acc Hacc Hs; simpl; constructor.
  - simpl. inversion Hs; subst. nra.
  - fold (unorder_of v (acc * x)). inversion Hs; subst.
    apply IH; [nra | assumption].
Qed.

End Unorder.

Lemma nth_map_lt {A B : Type} (f : A -> B) (l : list A) j d d' :
  (j < length l)%nat -> nth j (map f l) d = f (nth j l d').
Proof.
  intros Hj. rewrite (nth_indep _ d (f d')) by (now rewrite length_map).
  apply map_nth.
Qed.

Section Loop.

Variable n : nat.
Variable unorder : vec.

Lemma identity_row_some idx : (idx < n)%nat ->
  Tf.identity_row n idx = Some (one_hot n idx).
Proof.
  intros H. unfold Tf.identity_row.
  destruct (Nat.ltb_spec idx n); [reflexivity | lia].
Qed.

Lemma one_hot_length k : length (one_hot n k) = n.
Proof. unfold one_hot. now rewrite length_map, length_seq. Qed.

Lemma one_hot_nth k j : (k < n)%nat ->
  nth j (one_hot n k) 0 = if j =? k then 1 else 0.
Proof.
  intros Hk. unfold one_hot.
  destruct (Nat.lt_ge_cases j n) as [Hj|Hj].
  - rewrite (nth_map_lt _ _ _ _ 0%nat) by (now rewrite length_seq).
    rewrite seq_nth by assumption. reflexivity.
  - rewrite nth_overflow by (now rewrite length_map, length_seq).
    destruct (Nat.eqb_spec j k); [lia | reflexivity].
Qed.

Lemma add_length : forall a b : vec, length a = length b ->
  length (Tf.add a b) = length a.
Proof.
  induction a as [|x a IH]; intros [|y b] H; simpl in *; try lia.
  now rewrite IH by lia.
Qed.

Lemma add_nth : forall (a b : vec) j, length a = length b ->
  nth j (Tf.add a b) 0 = nth j a 0 + nth j b 0.
Proof.
  induction a as [|x a IH]; intros [|y b] j H; simpl in *; try lia.
  - destruct j; lra.
  - destruct j; [reflexivity | apply IH; lia].
Qed.

Lemma add_sum : forall a b : vec, length a = length b ->
  Tf.sum (Tf.add a b) = Tf.sum a + Tf.sum b.
Proof.
  induction a as [|x a IH]; intros [|y b] H; simpl in *; try lia; [lra|].
  rewrite IH by lia. lra.
Qed.

Lemma scale_nth c (v : vec) j : nth j (Tf.scale c v) 0 = nth j v 0 * c.
Proof.
  unfold Tf.scale.
  destruct (Nat.lt_ge_cases j (length v)) as [Hj|Hj].
  - now rewrite (nth_map_lt _ _ _ _ 0).
  - rewrite !nth_overflow; [lra | assumption | now rewrite length_map].
Qed.

Lemma scale_sum c (v : vec) : Tf.sum (Tf.scale c v) = Tf.sum v * c.
Proof. induction v as [|x v IH]; simpl; [lra|]. rewrite IH. lra. Qed.

Lemma one_hot_sum_from k : forall len start,
  Tf.sum (map (fun j => if j =? k then 1 else 0) (seq start len)) =
  if (start <=? k) && (k <? start + len) then 1 else 0.
Proof.
  induction len as [|len IH]; intros start; simpl.
  - destruct (Nat.leb_spec start k), (Nat.ltb_spec k (start + 0)); simpl;
      try reflexivity; lia.
  - rewrite IH.
    destruct (Nat.eqb_spec start k), (Nat.leb_spec (S start) k),
      (Nat.ltb_spec k (S start + len)), (Nat.leb_spec start k),
      (Nat.ltb_spec k (start + S len)); simpl; try lra; lia.
Qed.

Lemma one_hot_sum k : (k < n)%nat -> Tf.sum (one_hot n k) = 1.
Proof.
  intros Hk. unfold one_hot. rewrite one_hot_sum_from.
  destruct (Nat.leb_spec 0 k), (Nat.ltb_spec k (0 + n)); simpl;
    try reflexivity; lia.
Qed.

(** The loop returns, and row [j] of its result is the row it started from
    plus the entries of [unorder] scattered to [j]. *)
Lemma alloc_loop_spec : forall free_list pos alloc,
  Forall (fun i => (i < n)%nat) free_list ->
  length alloc = n ->
  exists a, alloc_loop n unorder pos free_list alloc = Some a /\
    length a = n /\
    (forall j, nth j a 0 = nth j alloc 0 + contribution unorder pos free_list j) /\
    Tf.sum a = Tf.sum alloc + range_sum unorder pos (length free_list).
Proof.
  induction free_list as [|idx rest IH]; intros pos alloc Hb Hl; simpl.
  - exists alloc. repeat split; auto; intros; lra.
  - apply Forall_cons_iff in Hb as [Hidx Hrest].
    rewrite identity_row_some by assumption. simpl.
    assert (Hlen : length alloc = length (Tf.scale (nth pos unorder 0) (one_hot n idx)))
      by (unfold Tf.scale; now rewrite length_map, one_hot_length).
    destruct (IH (S pos) (Tf.add alloc (Tf.scale (nth pos unorder 0) (one_hot n idx))) Hrest)
      as (a & Ha & Hla & Hnth & Hsum).
    { now rewrite add_length. }
    exists a. repeat split; auto.
    + intros j. rewrite Hnth, add_nth, scale_nth, one_hot_nth by assumption.
      destruct (j =? idx); lra.
    + rewrite Hsum, add_sum, scale_sum, one_hot_sum by assumption. lra.
Qed.

Lemma contribution_absent : forall free_list pos j,
  ~ In j free_list -> contribution unorder pos free_list j = 0.
Proof.
  induction free_list as [|idx rest IH]; intros pos j Hj; simpl; [reflexivity|].
  rewrite IH by (intros H; apply Hj; now right).
  destruct (Nat.eqb_spec j idx); [|lra].
  exfalso; apply Hj; now left.
Qed.

Lemma contribution_nth : forall free_list pos k,
  NoDup free_list -> (k < length free_list)%nat ->
  contribution unorder pos free_list (nth k free_list 0%nat) =
  nth (pos + k) unorder 0.
Proof.
  induction free_list as [|idx rest IH]; intros pos k Hnd Hk; simpl in *; [lia|].
  inversion Hnd as [|? ? Hnotin Hnd']; subst.
  destruct k as [|k].
  - rewrite Nat.eqb_refl, contribution_absent by assumption.
    rewrite Nat.add_0_r. lra.
  - destruct (Nat.eqb_spec (nth k rest 0%nat) idx) as [E|E].
    + exfalso. apply Hnotin. rewrite <- E. apply nth_In. lia.
    + rewrite IH by (auto; lia).
      replace (pos + S k)%nat with (S pos + k)%nat by lia. lra.
Qed.

Lemma contribution_nonneg : forall free_list pos j,
  Forall (fun x => 0 <= x) unorder ->
  0 <= contribution unorder pos free_list j.
Proof.
  induction free_list as [|idx rest IH]; intros pos j Hu; simpl; [lra|].
  specialize (IH (S pos) j Hu).
  assert (0 <= nth pos unorder 0).
  { destruct (Nat.lt_ge_cases pos (length unorder)) as [Hp|Hp].
    - apply (proj1 (Forall_forall _ _) Hu), nth_In, Hp.
    - rewrite nth_overflow by assumption. lra. }
  destruct (j =? idx); lra.
Qed.

Lemma range_sum_cons x (v : vec) pos len :
  range_sum (x :: v) (S pos) len = range_sum v pos len.
Proof. revert pos; induction len; intros; simpl; auto. now rewrite IHlen. Qed.

End Loop.

Lemma sum_zeros n : Tf.sum (Tf.zeros n) = 0.
Proof.
  induction n as [|n IH]; simpl; [reflexivity|].
  change (0 + Tf.sum (Tf.zeros n) = 0). rewrite IH. lra.
Qed.

Lemma range_sum_all (v : vec) : range_sum v 0 (length v) = Tf.sum v.
Proof.
  induction v as [|x v IH]; simpl; [reflexivity|].
  now rewrite range_sum_cons, IH.
Qed.

(* ================================================================= *)
(** * allocation_weighting *)

(** On a usage column of [N] rows [allocation_weighting] returns; its result
    is described row by row, and its sum is the sum of [unorder]. *)
Lemma allocation_weighting_eval (s : DNC) :
  length (usage s) = N s ->
  let free := free_list_of (usage s) in
  let unorder := unorder_of (sorted_usage_of (usage s)) 1 in
  exists a, allocation_weighting s = Some a /\
    length a = N s /\
    (forall j, nth j a 0 = contribution unorder 0 free j) /\
    (forall k, (k < N s)%nat -> nth (nth k free 0%nat) a 0 = nth k unorder 0) /\
    Tf.sum a = Tf.sum unorder.
Proof.
  intros Hlen free unorder.
  assert (Hfl : length free = N s)
    by (unfold free; now rewrite free_list_length).
  destruct (alloc_loop_spec (N s) unorder free 0 (Tf.zeros (N s)))
    as (a & Ha & Hla & Hnth & Hsum).
  { rewrite <- Hlen. apply free_list_bound. }
  { apply repeat_length. }
  exists a.
  assert (Hz : forall j, nth j (Tf.zeros (N s)) 0 = 0).
  { intros j. unfold Tf.zeros.
    destruct (Nat.lt_ge_cases j (N s)).
    - now apply nth_repeat_lt.
    - apply nth_overflow. now rewrite repeat_length. }
  assert (Hc : forall j, nth j a 0 = contribution unorder 0 free j).
  { intros j. rewrite Hnth, Hz. lra. }
  split.
  - unfold allocation_weighting, Tf.top_k.
    rewrite length_map.
    replace (N s <=? length (usage s)) with true
      by (symmetry; apply Nat.leb_le; lia).
    simpl.
    rewrite firstn_all2
      by (rewrite sort_desc_length, length_combine, length_map, length_seq; lia).
    change (alloc_weights <- alloc_loop (N s) unorder 0 free (Tf.zeros (N s)) ;;
            Tf.reshape1 alloc_weights (N s) = Some a).
    rewrite Ha. simpl.
    unfold Tf.reshape1. now rewrite Hla, Nat.eqb_refl.
  - repeat split; auto.
    + intros k Hk. rewrite Hc. unfold free.
      rewrite contribution_nth; [reflexivity | apply free_list_NoDup | ].
      fold free. lia.
    + rewrite Hsum, sum_zeros, Hfl.
      replace (N s) with (length unorder)
        by (unfold unorder; now rewrite unorder_length, sorted_usage_length).
      rewrite range_sum_all. lra.
Qed.

Lemma sorted_head_least (l : vec) k :
  StronglySorted Rle l -> (k < length l)%nat -> nth 0 l 0 <= nth k l 0.
Proof.
  intros Hs Hk. destruct Hs as [|x l Hs Hx]; simpl in *; [lia|].
  destruct k as [|k]; [lra|].
  apply (proj1 (Forall_forall _ _) Hx), nth_In. lia.
Qed.

Lemma sorted_by_nth (u : vec) (free : list nat) k :
  (k < length free)%nat ->
  nth k (sorted_by u free) 0 = nth (nth k free 0%nat) u 0.
Proof.
  intros Hk. exact (nth_map_lt (fun i => nth i u 0) free k 0 0%nat Hk).
Qed.

(** C3. For a usage vector of length N, [allocation_weighting] returns the
    weighting of the specification: the free list is a permutation of the row
    indices that sorts the usage in ascending order, and the weight
    scattered back to row [free[k]] is (1 - sorted_u[k]) times the exclusive
    cumulative product of the sorted usage at [k] (1 at position 0, the
    product of sorted_u[i] for i < k at position k). *)
Theorem allocation_weighting_follows_spec (s : DNC) :
  length (usage s) = N s ->
  exists a, allocation_weighting s = Some a /\
            allocation_spec (usage s) (free_list_of (usage s)) a.
Proof.
  intros Hlen.
  destruct (allocation_weighting_eval s Hlen) as (a & Ha & Hla & _ & Hnth & _).
  exists a. split; [exact Ha|].
  unfold allocation_spec. rewrite <- sorted_usage_by.
  split; [apply free_list_perm|].
  split; [apply sorted_usage_sorted|].
  split; [congruence|].
  intros k Hk. rewrite Hnth by lia.
  rewrite unorder_nth by (rewrite sorted_usage_length; exact Hk).
  unfold exclusive_cumprod_at. ring.
Qed.

(** C4. For a usage vector with entries in [0,1], every entry of the
    allocation weighting is non-negative and the entries sum to at most 1. *)
Theorem allocation_weighting_nonneg_sum_le_1 (s : DNC) :
  length (usage s) = N s ->
  Forall in_unit (usage s) ->
  exists a, allocation_weighting s = Some a /\
            Forall (fun x => 0 <= x) a /\ Tf.sum a <= 1.
Proof.
  intros Hlen Hu.
  destruct (allocation_weighting_eval s Hlen) as (a & Ha & Hla & Hc & _ & Hsum).
  pose proof (sorted_usage_range _ Hu) as Hr.
  exists a. split; [exact Ha|]. split.
  - apply Forall_forall; intros x Hx.
    destruct (In_nth _ _ 0 Hx) as (j & _ & <-).
    rewrite Hc. apply contribution_nonneg.
    apply unorder_nonneg; [lra | exact Hr].
  - rewrite Hsum, unorder_sum.
    pose proof (prod_range _ Hr). lra.
Qed.

(** The row at the head of the free list has minimal usage and the largest
    allocation weight. *)
Lemma allocation_weighting_head (s : DNC) :
  length (usage s) = N s ->
  Forall in_unit (usage s) ->
  (0 < N s)%nat ->
  exists a i, allocation_weighting s = Some a /\
    i = hd 0%nat (free_list_of (usage s)) /\
    (i < N s)%nat /\
    (forall j, (j < N s)%nat -> nth i (usage s) 0 <= nth j (usage s) 0) /\
    (forall j, (j < N s)%nat -> nth j a 0 <= nth i a 0).
Proof.
  intros Hlen Hu Hpos.
  destruct (allocation_weighting_eval s Hlen) as (a & Ha & Hla & _ & Hnth & _).
  set (free := free_list_of (usage s)) in *.
  set (sorted := sorted_usage_of (usage s)) in *.
  assert (Hfl : length free = N s)
    by (unfold free; now rewrite free_list_length).
  assert (Hsl : length sorted = N s)
    by (unfold sorted; now rewrite sorted_usage_length).
  assert (Hhd : hd 0%nat free = nth 0 free 0%nat) by (now destruct free).
  assert (Hsrt : StronglySorted Rle sorted) by apply sorted_usage_sorted.
  assert (Hr : Forall in_unit sorted) by (apply sorted_usage_range, Hu).
  assert (Hby : forall k, (k < N s)%nat ->
                          nth k sorted 0 = nth (nth k free 0%nat) (usage s) 0).
  { intros k Hk. unfold sorted. rewrite sorted_usage_by.
    apply sorted_by_nth. fold free. lia. }
  assert (Hidx : forall j, (j < N s)%nat ->
                           exists k, (k < N s)%nat /\ nth k free 0%nat = j).
  { intros j Hj.
    assert (Hin : In j free).
    { apply (Permutation_in _ (Permutation_sym (free_list_perm (usage s)))).
      apply in_seq. lia. }
    destruct (In_nth _ _ 0%nat Hin) as (k & Hk & Ek).
    exists k. split; [lia | exact Ek]. }
  exists a, (hd 0%nat free). split; [exact Ha|]. split; [reflexivity|].
  rewrite Hhd. split.
  - rewrite <- Hlen.
    apply (proj1 (Forall_forall _ _) (free_list_bound (usage s))), nth_In.
    fold free. lia.
  - split; intros j Hj; destruct (Hidx j Hj) as (k & Hk & <-).
    + rewrite <- !Hby by lia. apply sorted_head_least; [exact Hsrt | lia].
    + rewrite !Hnth by lia.
      rewrite !unorder_nth by (fold sorted; lia). fold sorted. simpl.
      pose proof (sorted_head_least sorted k Hsrt ltac:(lia)) as Hle.
      pose proof (prod_range _ (firstn_range k _ Hr)) as Hp.
      assert (H0 : in_unit (nth 0 sorted 0))
        by (apply (proj1 (Forall_forall _ _) Hr), nth_In; lia).
      assert (H1 : in_unit (nth k sorted 0))
        by (apply (proj1 (Forall_forall _ _) Hr), nth_In; lia).
      unfold in_unit in *. nra.
Qed.

(* ================================================================= *)
(** * partition_interface *)

Section Segments.

Variable j : nat.

Lemma selected_segment (f : vec) i : forall data parts,
  selected j (f ++ data) (repeat i (length f) ++ parts) =
  (if i =? j then f else []) ++ selected j data parts.
Proof.
  unfold selected.
  induction f as [|x f IH]; intros data parts; simpl.
  - now destruct (i =? j).
  - destruct (i =? j) eqn:E; simpl; rewrite IH; reflexivity.
Qed.

Lemma selected_segments segs :
  selected j (seg_data segs) (seg_parts segs) =
  concat (map (fun sf => if fst sf =? j then snd sf else []) segs).
Proof.
  unfold seg_data, seg_parts.
  induction segs as [|[i f] segs IH]; simpl; [reflexivity|].
  now rewrite selected_segment, IH.
Qed.

Lemma seg_lengths segs : length (seg_data segs) = length (seg_parts segs).
Proof.
  unfold seg_data, seg_parts.
  induction segs as [|[i f] segs IH]; simpl; [reflexivity|].
  now rewrite !length_app, repeat_length, IH.
Qed.

Lemma seg_parts_bound segs num :
  Forall (fun sf => (fst sf < num)%nat) segs ->
  forallb (fun p => p <? num) (seg_parts segs) = true.
Proof.
  unfold seg_parts.
  induction 1 as [|[i f] segs Hi _ IH]; simpl; [reflexivity|].
  rewrite forallb_app, IH, andb_true_r.
  apply forallb_forall; intros p Hp.
  apply repeat_spec in Hp; subst p. now apply Nat.ltb_lt.
Qed.

End Segments.

Lemma dynamic_partition_segments segs num :
  Forall (fun sf => (fst sf < num)%nat) segs ->
  Tf.dynamic_partition (seg_data segs) (seg_parts segs) num =
  Some (map (fun j => concat (map (fun sf => if fst sf =? j then snd sf else [])
                                  segs))
            (seq 0 num)).
Proof.
  intros Hb. unfold Tf.dynamic_partition.
  rewrite seg_lengths, Nat.eqb_refl, seg_parts_bound by assumption. simpl.
  f_equal. apply map_ext; intros j. apply selected_segments.
Qed.

Lemma split_length {A : Type} (v : list A) n m :
  length v = (n + m)%nat ->
  exists a b, v = a ++ b /\ length a = n /\ length b = m.
Proof.
  intros H. exists (firstn n v), (skipn n v).
  rewrite firstn_skipn, length_firstn, length_skipn. repeat split; lia.
Qed.

Lemma length_one {A : Type} (v : list A) :
  length v = 1%nat -> exists x, v = [x].
Proof. destruct v as [|x [|y v]]; simpl; intros H; try lia. now exists x. Qed.

(** An interface row of the right length is the concatenation of its ten
    fields, and [partition_interface] returns these fields, transformed. *)
Lemma partition_interface_fields (s : DNC) :
  length (interface s) = (R_ s * W s + 3 * W s + 5 * R_ s + 3)%nat ->
  exists f0 f1 f2 x3 f4 f5 f6 x7 x8 f9,
    interface s = f0 ++ f1 ++ f2 ++ [x3] ++ f4 ++ f5 ++ f6 ++ [x7] ++ [x8] ++ f9 /\
    (length f0 = R_ s * W s /\ length f1 = R_ s /\ length f2 = W s /\
     length f4 = W s /\ length f5 = W s /\ length f6 = R_ s /\
     length f9 = 3 * R_ s)%nat /\
    partition_interface s =
    Some {| k_read := Tf.chunks (R_ s) (W s) f0;
            b_read := map (fun x => 1 + Tf.softplus x) f1;
            k_write := f2;
            b_write := [1 + Tf.softplus x3];
            erase := map Tf.sigmoid f4;
            write_v := f5;
            free_gates := map Tf.sigmoid f6;
            alloc_gate := [Tf.sigmoid x7];
            write_gate := [Tf.sigmoid x8];
            read_modes := Tf.softmax_axis0 (Tf.chunks 3 (R_ s) f9) |}.
Proof.
  intros Hlen.
  destruct (split_length (interface s) (R_ s * W s)
              (R_ s + (W s + (1 + (W s + (W s + (R_ s + (1 + (1 + 3 * R_ s)))))))))
    as (f0 & r0 & E0 & H0 & L0); [lia|].
  destruct (split_length r0 (R_ s) _ L0) as (f1 & r1 & E1 & H1 & L1).
  destruct (split_length r1 (W s) _ L1) as (f2 & r2 & E2 & H2 & L2).
  destruct (split_length r2 1 _ L2) as (f3 & r3 & E3 & H3 & L3).
  destruct (split_length r3 (W s) _ L3) as (f4 & r4 & E4 & H4 & L4).
  destruct (split_length r4 (W s) _ L4) as (f5 & r5 & E5 & H5 & L5).
  destruct (split_length r5 (R_ s) _ L5) as (f6 & r6 & E6 & H6 & L6).
  destruct (split_length r6 1 _ L6) as (f7 & r7 & E7 & H7 & L7).
  destruct (split_length r7 1 _ L7) as (f8 & f9 & E8 & H8 & H9).
  destruct (length_one _ H3) as (x3 & ->).
  destruct (length_one _ H7) as (x7 & ->).
  destruct (length_one _ H8) as (x8 & ->).
  subst r0 r1 r2 r3 r4 r5 r6 r7.
  exists f0, f1, f2, x3, f4, f5, f6, x7, x8, f9.
  split; [exact E0|]. split; [repeat split; assumption|].
  set (segs := [(0%nat, f0); (1%nat, f1); (2%nat, f2); (3%nat, [x3]);
                (4%nat, f4); (5%nat, f5); (6%nat, f6); (7%nat, [x7]);
                (8%nat, [x8]); (9%nat, f9)]).
  assert (Ed : interface s = seg_data segs).
  { rewrite E0. unfold seg_data, segs. simpl. now rewrite app_nil_r. }
  assert (Ep : partition_indices s = seg_parts segs).
  { unfold seg_parts, segs, partition_indices. simpl.
    rewrite H0, H1, H2, H4, H5, H6, H9, app_nil_r.
    now rewrite (Nat.mul_comm 3 (R_ s)). }
  unfold partition_interface. rewrite Ed, Ep.
  rewrite dynamic_partition_segments
    by (unfold segs; repeat constructor; simpl; lia).
  unfold segs. simpl. rewrite !app_nil_r.
  unfold Tf.reshape2, Tf.reshape1.
  rewrite H0, H9, !Nat.eqb_refl. simpl. reflexivity.
Qed.

(** C2. An interface vector of length R*W + 3*W + 5*R + 3 is cut by
    [partition_interface] into ten contiguous fields, in this order and with
    these sizes: R*W read keys, R read strengths, W write key, 1 write
    strength, W erase, W write vector, R free gates, 1 allocation gate,
    1 write gate, 3*R read-mode logits; each returned tensor is built from
    its own field. *)
Theorem partition_interface_layout (s : DNC) :
  length (interface s) = (R_ s * W s + 3 * W s + 5 * R_ s + 3)%nat ->
  exists rk rs wk ws er wv fg ag wg rm,
    interface s = rk ++ rs ++ wk ++ ws ++ er ++ wv ++ fg ++ ag ++ wg ++ rm /\
    (length rk = R_ s * W s /\ length rs = R_ s /\ length wk = W s /\
     length ws = 1 /\ length er = W s /\ length wv = W s /\
     length fg = R_ s /\ length ag = 1 /\ length wg = 1 /\
     length rm = 3 * R_ s)%nat /\
    exists p, partition_interface s = Some p /\
      k_read p = Tf.chunks (R_ s) (W s) rk /\
      b_read p = map (fun x => 1 + Tf.softplus x) rs /\
      k_write p = wk /\
      b_write p = map (fun x => 1 + Tf.softplus x) ws /\
      erase p = map Tf.sigmoid er /\
      write_v p = wv /\
      free_gates p = map Tf.sigmoid fg /\
      alloc_gate p = map Tf.sigmoid ag /\
      write_gate p = map Tf.sigmoid wg /\
      read_modes p = Tf.softmax_axis0 (Tf.chunks 3 (R_ s) rm).
Proof.
  intros Hlen.
  destruct (partition_interface_fields s Hlen)
    as (f0 & f1 & f2 & x3 & f4 & f5 & f6 & x7 & x8 & f9 & E & Hl & Hp).
  destruct Hl as (H0 & H1 & H2 & H4 & H5 & H6 & H9).
  exists f0, f1, f2, [x3], f4, f5, f6, [x7], [x8], f9.
  split; [exact E|].
  split; [repeat split; assumption|].
  eexists. split; [exact Hp|]. simpl. repeat split; reflexivity.
Qed.

Lemma softplus_nonneg x : 0 <= Tf.softplus x.
Proof.
  unfold Tf.softplus. rewrite <- ln_1. left.
  apply ln_increasing; [lra|]. pose proof (exp_pos x). lra.
Qed.

Lemma strengths_ge_1 (raw : vec) :
  Forall (fun b => 1 <= b) (map (fun x => 1 + Tf.softplus x) raw).
Proof.
  apply Forall_map, Forall_forall; intros x _.
  pose proof (softplus_nonneg x). lra.
Qed.

(** C7. For an interface vector of the right length, the read strengths and
    the write strength returned by [partition_interface] are 1 + softplus of
    the raw entries of their fields, R of them and one, and each is greater
    than or equal to 1. *)
Theorem partition_interface_strengths (s : DNC) :
  length (interface s) = (R_ s * W s + 3 * W s + 5 * R_ s + 3)%nat ->
  exists p rk rs wk x rest,
    partition_interface s = Some p /\
    interface s = rk ++ rs ++ wk ++ [x] ++ rest /\
    (length rk = R_ s * W s /\ length rs = R_ s /\ length wk = W s)%nat /\
    b_read p = map (fun x => 1 + Tf.softplus x) rs /\
    b_write p = [1 + Tf.softplus x] /\
    Forall (fun b => 1 <= b) (b_read p) /\
    Forall (fun b => 1 <= b) (b_write p).
Proof.
  intros Hlen.
  destruct (partition_interface_fields s Hlen)
    as (f0 & f1 & f2 & x3 & f4 & f5 & f6 & x7 & x8 & f9 & E & Hl & Hp).
  destruct Hl as (H0 & H1 & H2 & _).
  eexists. exists f0, f1, f2, x3, (f4 ++ f5 ++ f6 ++ [x7] ++ [x8] ++ f9).
  split; [exact Hp|]. simpl.
  split; [exact E|]. split; [auto|].
  split; [reflexivity|]. split; [reflexivity|].
  split; [apply strengths_ge_1 | apply (strengths_ge_1 [x3])].
Qed.

(* ================================================================= *)
(** * content_lookup *)

Section MapM.

Context {A B : Type}.
Variable f : A -> option B.

Lemma mapM_length : forall l l', mapM f l = Some l' -> length l' = length l.
Proof.
  induction l as [|a l IH]; intros l' H; simpl in H.
  - now inversion H.
  - destruct (f a); simpl in H; [|discriminate].
    destruct (mapM f l); simpl in H; [|discriminate].
    inversion H; subst. simpl. now rewrite (IH _ eq_refl).
Qed.

Lemma mapM_Forall (P : B -> Prop) : forall l l',
  mapM f l = Some l' ->
  (forall a b, In a l -> f a = Some b -> P b) ->
  Forall P l'.
Proof.
  induction l as [|a l IH]; intros l' H HP; simpl in H.
  - inversion H. constructor.
  - destruct (f a) as [b|] eqn:Ea; simpl in H; [|discriminate].
    destruct (mapM f l) as [bs|]; simpl in H; [|discriminate].
    inversion H; subst. constructor.
    + apply (HP a); [now left | exact Ea].
    + apply IH; [reflexivity|]. intros a' b' Hin. apply HP. now right.
Qed.

Lemma mapM_total : forall l,
  (forall a, In a l -> exists b, f a = Some b) ->
  exists l', mapM f l = Some l'.
Proof.
  induction l as [|a l IH]; intros H; simpl.
  - now exists [].
  - destruct (H a (or_introl eq_refl)) as (b & ->).
    destruct IH as (bs & ->); [intros a' Ha'; apply H; now right|].
    simpl. now exists (b :: bs).
Qed.

End MapM.

Lemma dot_total : forall a b : vec,
  length a = length b -> exists r, Tf.dot a b = Some r.
Proof.
  induction a as [|x a IH]; intros [|y b] H; simpl in *; try lia.
  - now exists 0.
  - destruct (IH b) as (r & ->); [lia|]. simpl. eauto.
Qed.

Lemma matmul_transpose_b_shape (a b : matrix) wd :
  Forall (fun r => length r = wd) a ->
  Forall (fun r => length r = wd) b ->
  exists sim, Tf.matmul_transpose_b a b = Some sim /\
              has_shape sim (length a) (length b).
Proof.
  intros Ha Hb. unfold Tf.matmul_transpose_b.
  destruct (mapM_total (fun ra => mapM (fun rb => Tf.dot ra rb) b) a)
    as (sim & Hsim).
  { intros ra Hra. apply mapM_total. intros rb Hrb. apply dot_total.
    rewrite (proj1 (Forall_forall _ _) Ha ra Hra).
    now rewrite (proj1 (Forall_forall _ _) Hb rb Hrb). }
  exists sim. split; [exact Hsim|]. split.
  - exact (mapM_length _ _ _ Hsim).
  - apply (mapM_Forall _ _ _ _ Hsim).
    intros ra row _ Hrow. exact (mapM_length _ _ _ Hrow).
Qed.

Lemma broadcast_mul_shape (row strength : vec) :
  length strength = length row \/ length strength = 1%nat ->
  exists r, Tf.broadcast_mul row strength = Some r /\ length r = length row.
Proof.
  intros H. unfold Tf.broadcast_mul.
  destruct (Nat.eqb_spec (length row) (length strength)) as [E|E].
  - eexists; split; [reflexivity|].
    rewrite length_map, length_combine. lia.
  - destruct H as [H|H]; [lia|].
    destruct (length_one _ H) as (b & ->).
    eexists; split; [reflexivity|]. now rewrite length_map.
Qed.

Section Softmax.

Lemma nth_indexed (g : nat -> R -> R) : forall (r : vec) k j,
  (j < length r)%nat ->
  nth j (map (fun p => g (fst p) (snd p)) (combine (seq k (length r)) r)) 0 =
  g (k + j)%nat (nth j r 0).
Proof.
  induction r as [|x r IH]; intros k j Hj; simpl in *; [lia|].
  destruct j as [|j].
  - now rewrite Nat.add_0_r.
  - rewrite IH by lia. f_equal. lia.
Qed.

Lemma sum_map_div (l : vec) d :
  Tf.sum (map (fun y => y / d) l) = Tf.sum l / d.
Proof.
  induction l as [|y l IH]; simpl; [unfold Rdiv; ring|].
  rewrite IH. unfold Rdiv. ring.
Qed.

Lemma sum_pos (l : vec) : l <> [] -> Forall (fun y => 0 < y) l -> 0 < Tf.sum l.
Proof.
  intros Hne Hl. destruct Hl as [|y l Hy Hl]; [congruence|]. simpl.
  assert (0 <= Tf.sum l).
  { clear Hne. induction Hl as [|z l Hz _ IH]; simpl; lra. }
  lra.
Qed.

Variable x : matrix.
Variable K : nat.
Hypothesis x_rows : Forall (fun r => length r = K) x.

Lemma exp_column_pos j : (j < K)%nat ->
  Forall (fun y => 0 < y) (Tf.column j (exps x)).
Proof.
  intros Hj. unfold Tf.column, exps. rewrite map_map.
  apply Forall_map, Forall_forall; intros r Hr.
  rewrite (nth_map_lt exp r j 0 0)
    by (rewrite (proj1 (Forall_forall _ _) x_rows r Hr); exact Hj).
  apply exp_pos.
Qed.

Lemma softmax_axis0_shape : has_shape (Tf.softmax_axis0 x) (length x) K.
Proof.
  unfold Tf.softmax_axis0. fold (exps x). split.
  - unfold exps. now rewrite !length_map.
  - unfold exps. rewrite map_map. apply Forall_map.
    eapply Forall_impl; [|exact x_rows].
    intros r Hr. simpl.
    rewrite length_map, length_combine, length_seq, !length_map.
    rewrite Hr. apply Nat.min_id.
Qed.

Lemma softmax_axis0_column j : (j < K)%nat ->
  Tf.column j (Tf.softmax_axis0 x) =
  map (fun y => y / Tf.sum (Tf.column j (exps x))) (Tf.column j (exps x)).
Proof.
  intros Hj. unfold Tf.softmax_axis0. fold (exps x).
  remember (Tf.sum (Tf.column j (exps x))) as d eqn:Ed.
  unfold Tf.column at 1 3. rewrite !map_map.
  apply map_ext_in; intros r Hr. subst d.
  assert (Hlr : length r = K).
  { unfold exps in Hr. apply in_map_iff in Hr as (r0 & <- & Hr0).
    rewrite length_map. exact (proj1 (Forall_forall _ _) x_rows r0 Hr0). }
  rewrite (nth_indexed (fun i y => y / Tf.sum (Tf.column i (exps x))) r 0 j) by lia.
  reflexivity.
Qed.

(** Every column of a softmax over at least one row is non-negative and
    sums to 1. *)
Lemma softmax_axis0_distribution j : x <> [] -> (j < K)%nat ->
  Forall (fun y => 0 <= y) (Tf.column j (Tf.softmax_axis0 x)) /\
  Tf.sum (Tf.column j (Tf.softmax_axis0 x)) = 1.
Proof.
  intros Hne Hj. rewrite softmax_axis0_column by assumption.
  pose proof (exp_column_pos j Hj) as Hpos.
  assert (Hd : 0 < Tf.sum (Tf.column j (exps x))).
  { apply sum_pos; [|exact Hpos].
    unfold Tf.column, exps. destruct x; [congruence | discriminate]. }
  split.
  - apply Forall_map. eapply Forall_impl; [|exact Hpos].
    intros y Hy. simpl. apply Rlt_le, Rdiv_lt_0_compat; assumption.
  - rewrite sum_map_div. field. lra.
Qed.

End Softmax.

Lemma l2_normalize_rows (m : matrix) wd :
  Forall (fun r => length r = wd) m ->
  Forall (fun r => length r = wd) (map Tf.l2_normalize m).
Proof.
  intros H. apply Forall_map. eapply Forall_impl; [|exact H].
  intros r Hr. simpl. unfold Tf.l2_normalize. now rewrite length_map.
Qed.

(** C5. For a memory matrix of at least one row, a key matrix of the same
    width and one strength per key (or a single strength, broadcast),
    [content_lookup] returns an N x K weighting, and each of its K columns is
    entrywise non-negative and sums to 1. *)
Theorem content_lookup_columns (s : DNC) (key : matrix) (strength : vec)
  (wd : nat) :
  M s <> [] ->
  Forall (fun r => length r = wd) (M s) ->
  Forall (fun r => length r = wd) key ->
  length strength = length key \/ length strength = 1%nat ->
  exists w, content_lookup s key strength = Some w /\
    has_shape w (length (M s)) (length key) /\
    forall j, (j < length key)%nat ->
      Forall (fun y => 0 <= y) (Tf.column j w) /\ Tf.sum (Tf.column j w) = 1.
Proof.
  intros Hne HM Hkey Hstr. unfold content_lookup.
  destruct (matmul_transpose_b_shape _ _ wd (l2_normalize_rows _ _ HM)
              (l2_normalize_rows _ _ Hkey)) as (sim & -> & Hn & Hk).
  rewrite length_map in Hn, Hk. simpl.
  destruct (mapM_total (fun row => Tf.broadcast_mul row strength) sim)
    as (scaled & Hscaled).
  { intros row Hrow.
    destruct (broadcast_mul_shape row strength) as (r & Hr & _); [|eauto].
    now rewrite (proj1 (Forall_forall _ _) Hk row Hrow). }
  rewrite Hscaled. simpl.
  assert (Hrows : Forall (fun r => length r = length key) scaled).
  { apply (mapM_Forall _ _ _ _ Hscaled). intros row r Hrow Hr.
    destruct (broadcast_mul_shape row strength) as (r' & Hr' & Hlen).
    { now rewrite (proj1 (Forall_forall _ _) Hk row Hrow). }
    rewrite Hr in Hr'. inversion Hr'; subst r'.
    now rewrite Hlen, (proj1 (Forall_forall _ _) Hk row Hrow). }
  assert (Hlen : length scaled = length (M s))
    by (now rewrite (mapM_length _ _ _ Hscaled)).
  eexists. split; [reflexivity|]. split.
  - rewrite <- Hlen. now apply softmax_axis0_shape.
  - intros j Hj. apply (softmax_axis0_distribution scaled (length key)); auto.
    intros ->. simpl in Hlen. destruct (M s); [congruence | discriminate].
Qed.

(* ================================================================= *)
(** * __init__, write, read, controller, call *)

(** C1 (amended).  The write step is a stub: whatever the write
    weighting, the erase vector and the write vector, it leaves every row of
    the memory as it was, row [k] included; so the other rows are unchanged,
    and row [k] holds [v] afterwards exactly when it held [v] before. *)
Theorem write_leaves_memory (s : DNC) (k : nat) (v : vec) :
  M (write s) = M s /\
  (forall j, nth j (M (write s)) [] = nth j (M s) []) /\
  (write_round_trip s k v <-> nth k (M s) [] = v).
Proof.
  unfold write_round_trip, write. repeat split; auto; tauto.
Qed.

(** C1 fails as stated: with a write weighting one-hot on row 0 of a zero
    memory, row 0 does not become the write vector [1]. *)
Lemma write_round_trip_fails :
  W_write one_hot_sample = one_hot (N one_hot_sample) 0 /\
  M one_hot_sample = [[0]; [0]] /\
  ~ write_round_trip one_hot_sample 0 [1].
Proof.
  split; [reflexivity|]. split; [reflexivity|].
  intros [H _]. simpl in H. injection H. lra.
Qed.

Lemma controller_raises (Dense : nat -> vec -> vec)
  (LSTM : nat -> matrix -> vec * vec -> vec * vec * vec) (x : vec) (s : DNC) :
  controller Dense LSTM x s =
  (s, inl (if length (read_v s) =? 1 then TypeError else ValueError)).
Proof.
  unfold controller, bind_exec, get, lift_result, Keras.Concatenate_call.
  simpl. destruct (length (read_v s) =? 1); reflexivity.
Qed.

Lemma call_raises_at (Dense : nat -> vec -> vec)
  (LSTM : nat -> matrix -> vec * vec -> vec * vec * vec) (x : vec) (s : DNC) :
  call Dense LSTM x s =
  (s, inl (if length (read_v s) =? 1 then TypeError else ValueError)).
Proof.
  unfold call. unfold bind_exec at 1. now rewrite controller_raises.
Qed.

(** C8, on the code.  [__init__] raises AttributeError at its seventh
    assignment, [self.output = ...], having set output_dim, N, W, R,
    interface_dim and controller_dim only: the object never gets its
    temporal link matrix L, so there is no initial state in which the
    diagonal of L is zero.  On an object that has L, a call raises and
    leaves L as it was. *)
Theorem init_raises_before_L (Y : nat) (memory_shape : nat * nat)
  (n_read : nat) (rnd : Draws) :
  init Y memory_shape n_read rnd =
    ([ (a_output_dim, AInt Y);
       (a_N, AInt (fst memory_shape));
       (a_W, AInt (snd memory_shape));
       (a_R, AInt n_read);
       (a_interface_dim,
        AInt (n_read * snd memory_shape + 3 * snd memory_shape
              + 5 * n_read + 3));
       (a_controller_dim,
        AInt (Y + (n_read * snd memory_shape + 3 * snd memory_shape
                   + 5 * n_read + 3))) ],
     inl AttributeError) /\
  getattr (fst (init Y memory_shape n_read rnd)) a_L = None /\
  forall Dense LSTM x s, L (fst (call Dense LSTM x s)) = L s.
Proof.
  destruct memory_shape as [n w]. split; [reflexivity|].
  split; [reflexivity|].
  intros Dense LSTM x s. now rewrite call_raises_at.
Qed.

(** The constructor on the sample arguments: six attributes, then the
    raise. *)
Example init_sample_raises :
  snd (init 1 (2%nat, 1%nat) 1 sample_draws) = inl AttributeError /\
  map fst (fst (init 1 (2%nat, 1%nat) 1 sample_draws)) =
    [a_output_dim; a_N; a_W; a_R; a_interface_dim; a_controller_dim] /\
  getattr (fst (init 1 (2%nat, 1%nat) 1 sample_draws)) a_N = Some (AInt 2) /\
  getattr (fst (init 1 (2%nat, 1%nat) 1 sample_draws)) a_M = None.
Proof. repeat split; reflexivity. Qed.

(** C9. One invocation of [call] leaves the memory matrix, the usage vector,
    the temporal link matrix and the precedence vector exactly as they were
    before it, for every object and every input; and the [write] and [read]
    steps are stubs that change nothing. *)
Theorem call_leaves_memory_state (Dense : nat -> vec -> vec)
  (LSTM : nat -> matrix -> vec * vec -> vec * vec * vec)
  (s : DNC) (x : vec) :
  M (fst (call Dense LSTM x s)) = M s /\
  usage (fst (call Dense LSTM x s)) = usage s /\
  L (fst (call Dense LSTM x s)) = L s /\
  W_precedence (fst (call Dense LSTM x s)) = W_precedence s /\
  write s = s /\ read s = s.
Proof.
  rewrite call_raises_at. simpl. repeat split; reflexivity.
Qed.

(** C10, on the code.  [call] never returns None: on every object and every
    input it raises in [controller], where [axis=0] is handed to the call of
    the Concatenate layer and not to its constructor: TypeError when the
    read vectors have one row, ValueError from the shape check otherwise.
    The object is left as it was, and the read vectors are neither computed
    nor returned. *)
Theorem call_raises (Dense : nat -> vec -> vec)
  (LSTM : nat -> matrix -> vec * vec -> vec * vec * vec)
  (s : DNC) (x : vec) :
  call Dense LSTM x s =
    (s, inl (if length (read_v s) =? 1 then TypeError else ValueError)) /\
  snd (call Dense LSTM x s) <> inr PyNone /\
  read_v (fst (call Dense LSTM x s)) = read_v s /\
  call sample_Dense sample_LSTM [1] sample = (sample, inl TypeError).
Proof.
  split; [apply call_raises_at|].
  rewrite call_raises_at. simpl.
  split; [discriminate|]. split; reflexivity.
Qed.

Lemma sort_desc_first (l : list (R * nat)) :
  StronglySorted rising l -> l <> [] ->
  exists h rest, Tf.sort_desc l = h :: rest /\ first_max h l.
Proof.
  induction 1 as [|p l Hs IH Hp]; intros Hne; [congruence|].
  change (Tf.sort_desc (p :: l)) with (Tf.insert_desc p (Tf.sort_desc l)).
  destruct l as [|q l'].
  - exists p, []. split; [reflexivity|]. split; [now left|].
    intros x [<-|[]]. split; [lra | lia].
  - destruct IH as (h & rest & E & Hin & Hmax); [discriminate|].
    rewrite E. simpl. destruct (Rlt_dec (fst p) (fst h)) as [Hlt|Hge].
    + exists h, (Tf.insert_desc p rest). split; [reflexivity|].
      split; [now right|].
      intros x [<-|Hx]; [split; [lra | intros; lra] | now apply Hmax].
    + exists p, (h :: rest). split; [reflexivity|]. split; [now left|].
      intros x [<-|Hx]; [split; [lra | lia]|].
      destruct (Hmax x Hx) as [Hle _]. split; [lra|]. intros _.
      pose proof (proj1 (Forall_forall _ _) Hp x Hx) as Hr.
      unfold rising in Hr. lia.
Qed.

Lemma combine_seq_rising : forall (v : vec) k,
  StronglySorted rising (combine v (seq k (length v))).
Proof.
  induction v as [|x v IH]; intros k; simpl; constructor.
  - apply IH.
  - eapply Forall_impl; [|apply (combine_seq_nth v (S k))].
    intros p [Hle _]. unfold rising. simpl. lia.
Qed.

Lemma combine_seq_In : forall (v : vec) k j, (j < length v)%nat ->
  In (nth j v 0, (k + j)%nat) (combine v (seq k (length v))).
Proof.
  induction v as [|x v IH]; intros k j Hj; simpl in *; [lia|].
  destruct j as [|j].
  - left. now rewrite Nat.add_0_r.
  - right. replace (k + S j)%nat with (S k + j)%nat by lia. apply IH. lia.
Qed.

(** The head of the free list is the row of minimal usage with the lowest
    index. *)
Lemma free_list_head_first (u : vec) j :
  (j < length u)%nat ->
  nth (hd 0%nat (free_list_of u)) u 0 <= nth j u 0 /\
  (nth j u 0 = nth (hd 0%nat (free_list_of u)) u 0 ->
   (hd 0%nat (free_list_of u) <= j)%nat).
Proof.
  intros Hj.
  destruct (sort_desc_first (usage_pairs u)) as (h & rest & E & Hin & Hmax).
  { unfold usage_pairs. rewrite <- (length_map (fun x => -1 * x) u).
    apply combine_seq_rising. }
  { unfold usage_pairs. destruct u; [simpl in Hj; lia | discriminate]. }
  assert (Hh : fst h * -1 = nth (snd h) u 0).
  { pose proof (pairs_lookup u) as Hl. rewrite E in Hl.
    now apply Forall_cons_iff in Hl as [Hl _]. }
  assert (Hhd : hd 0%nat (free_list_of u) = snd h).
  { unfold free_list_of. fold (usage_pairs u). now rewrite E. }
  assert (Hjin : In (-1 * nth j u 0, j) (usage_pairs u)).
  { pose proof (combine_seq_In (map (fun x => -1 * x) u) 0 j) as H.
    rewrite length_map in H. specialize (H Hj).
    rewrite (nth_map_lt (fun x => -1 * x) u j 0 0) in H by exact Hj.
    exact H. }
  destruct (Hmax _ Hjin) as [Hle Htie]. simpl in Hle, Htie.
  rewrite Hhd, <- Hh. split; [lra|].
  intros Heq. apply Htie. lra.
Qed.

Lemma tie_sample_weights :
  allocation_weighting tie_sample = Some [1 / 2; 1 / 4].
Proof.
  unfold allocation_weighting, Tf.top_k. simpl. real_cases. simpl.
  unfold Tf.reshape1. simpl. vec_eq.
Qed.

(** C6 fails as stated: with usage 1/2 in both rows, each row has minimal
    usage, but row 1 receives the weight 1/4, less than the 1/2 of row 0. *)
Lemma min_usage_row_not_largest :
  Forall in_unit (usage tie_sample) /\ ~ min_usage_rows_largest tie_sample.
Proof.
  split.
  - simpl. repeat (apply Forall_cons; [unfold in_unit; lra|]). apply Forall_nil.
  - intros H.
    specialize (H _ 1%nat tie_sample_weights).
    assert (Hle : nth 0 [1 / 2; 1 / 4] 0 <= nth 1 [1 / 2; 1 / 4] 0).
    { apply H; simpl; try lia.
      intros [|[|j]] Hj; simpl; try lra; lia. }
    simpl in Hle. lra.
Qed.

(** C6 (amended). For a non-empty usage vector with entries in [0,1], the row
    at the head of the free list, which is the lowest-indexed row among
    those of minimal usage, receives an allocation weight greater than or
    equal to the weight of every row.  In particular a row whose usage is
    strictly below that of every other row receives the largest weight. *)
Theorem allocation_weighting_lowest_usage_largest (s : DNC) :
  length (usage s) = N s ->
  Forall in_unit (usage s) ->
  (0 < N s)%nat ->
  exists a i, allocation_weighting s = Some a /\
    i = hd 0%nat (free_list_of (usage s)) /\
    (i < N s)%nat /\
    (forall j, (j < N s)%nat -> nth i (usage s) 0 <= nth j (usage s) 0) /\
    (forall j, (j < N s)%nat -> nth j a 0 <= nth i a 0) /\
    (forall m, (m < N s)%nat ->
       (forall j, (j < N s)%nat -> j <> m ->
                  nth m (usage s) 0 < nth j (usage s) 0) ->
       forall j, (j < N s)%nat -> nth j a 0 <= nth m a 0) /\
    (forall j, (j < N s)%nat ->
       nth j (usage s) 0 = nth i (usage s) 0 -> (i <= j)%nat).
Proof.
  intros Hlen Hu Hpos.
  destruct (allocation_weighting_head s Hlen Hu Hpos)
    as (a & i & Ha & Ei & Hi & Hmin & Hmax).
  exists a, i. repeat split; try assumption.
  - intros m Hm Hstrict j Hj.
    destruct (Nat.eq_dec i m) as [<-|Hne]; [now apply Hmax|].
    specialize (Hstrict i Hi Hne). specialize (Hmin m Hm). lra.
  - intros j Hj Heq. subst i.
    apply (free_list_head_first (usage s) j); [lia | exact Heq].
Qed.

(* ================================================================= *)
(** * The model on sample objects *)

(** Usage 1/2 and 1/4: row 1 is the freer one and takes 3/4. *)
Example allocation_weighting_used_sample :
  allocation_weighting used_sample = Some [1 / 8; 3 / 4].
Proof.
  unfold allocation_weighting, Tf.top_k. simpl. real_cases. simpl.
  unfold Tf.reshape1. simpl. vec_eq.
Qed.

(** Equal usage: the row of lower index comes first in the free list. *)
Example allocation_weighting_tie :
  allocation_weighting
    (with_memory sample (M sample) [1 / 2; 1 / 2] (W_write sample))
  = Some [1 / 2; 1 / 4].
Proof.
  unfold allocation_weighting, Tf.top_k. simpl. real_cases. simpl.
  unfold Tf.reshape1. simpl. vec_eq.
Qed.

Lemma used_sample_in_unit : Forall in_unit (usage used_sample).
Proof.
  simpl. repeat (apply Forall_cons; [unfold in_unit; lra|]). apply Forall_nil.
Defined.

Lemma allocation_weighting_follows_spec_witness :
  exists a, allocation_weighting used_sample = Some a /\
            allocation_spec (usage used_sample)
                            (free_list_of (usage used_sample)) a.
Proof. apply allocation_weighting_follows_spec. reflexivity. Defined.

Lemma allocation_weighting_nonneg_sum_le_1_witness :
  exists a, allocation_weighting used_sample = Some a /\
            Forall (fun x => 0 <= x) a /\ Tf.sum a <= 1.
Proof.
  apply allocation_weighting_nonneg_sum_le_1;
    [reflexivity | exact used_sample_in_unit].
Defined.

Lemma allocation_weighting_lowest_usage_largest_witness :
  exists a i, allocation_weighting used_sample = Some a /\
              (forall j, (j < 2)%nat -> nth j a 0 <= nth i a 0).
Proof.
  destruct (allocation_weighting_lowest_usage_largest used_sample)
    as (a & i & Ha & _ & _ & _ & Hmax & _);
    [reflexivity | exact used_sample_in_unit | simpl; lia |].
  exists a, i. split; [exact Ha | exact Hmax].
Defined.

Lemma content_lookup_columns_witness :
  exists w, content_lookup sample [[1]] [1] = Some w /\
            Tf.sum (Tf.column 0 w) = 1.
Proof.
  destruct (content_lookup_columns sample [[1]] [1] 1) as (w & Hw & _ & Hc).
  - discriminate.
  - simpl. repeat (apply Forall_cons; [reflexivity|]). apply Forall_nil.
  - repeat (apply Forall_cons; [reflexivity|]). apply Forall_nil.
  - left. reflexivity.
  - exists w. split; [exact Hw|]. apply (Hc 0%nat). simpl. lia.
Defined.

Lemma partition_interface_layout_witness :
  exists p, partition_interface sample = Some p /\
            length (k_write p) = 1%nat.
Proof.
  destruct (partition_interface_layout sample eq_refl)
    as (rk & rs & wk & ws & er & wv & fg & ag & wg & rm & _ & Hl & p & Hp & Hk).
  exists p. split; [exact Hp|].
  destruct Hk as (_ & _ & -> & _). apply Hl.
Defined.

Lemma partition_interface_strengths_witness :
  exists p, partition_interface sample = Some p /\
            Forall (fun b => 1 <= b) (b_read p) /\
            Forall (fun b => 1 <= b) (b_write p).
Proof.
  destruct (partition_interface_strengths sample eq_refl)
    as (p & rk & rs & wk & x & rest & Hp & _ & _ & _ & _ & Hr & Hw).
  exists p. repeat split; assumption.
Defined.

(* ================================================================= *)
(** * Further properties of allocation_weighting *)

Lemma prod_perm (l l' : vec) : Permutation l l' -> Tf.prod l = Tf.prod l'.
Proof.
  induction 1 as [|x l l' _ IH|x y l|l l' l'' _ IH1 _ IH2]; simpl.
  - reflexivity.
  - now rewrite IH.
  - ring.
  - now rewrite IH1.
Qed.

Lemma map_nth_seq (u : vec) : map (fun i => nth i u 0) (seq 0 (length u)) = u.
Proof.
  apply (nth_ext _ _ 0 0).
  - now rewrite length_map, length_seq.
  - intros k Hk. rewrite length_map, length_seq in Hk.
    rewrite (nth_map_lt _ _ _ _ 0%nat) by (now rewrite length_seq).
    now rewrite seq_nth.
Qed.

Lemma sorted_usage_perm (u : vec) : Permutation (sorted_usage_of u) u.
Proof.
  rewrite sorted_usage_by. unfold sorted_by.
  rewrite (Permutation_map _ (free_list_perm u)). now rewrite map_nth_seq.
Qed.

Lemma prod_cons x (v : vec) : Tf.prod (x :: v) = x * Tf.prod v.
Proof. reflexivity. Qed.

Lemma prod_firstn_S (v : vec) : forall k, (k < length v)%nat ->
  Tf.prod (firstn (S k) v) = Tf.prod (firstn k v) * nth k v 0.
Proof.
  induction v as [|x v IH]; intros k Hk; simpl in Hk; [lia|].
  destruct k as [|k]; [simpl; ring|].
  rewrite !firstn_cons. simpl nth.
  rewrite !(prod_cons x), IH by lia. ring.
Qed.

Lemma sorted_nth_le (l : vec) : StronglySorted Rle l ->
  forall k k', (k <= k')%nat -> (k' < length l)%nat ->
               nth k l 0 <= nth k' l 0.
Proof.
  induction 1 as [|x l Hs IH Hx]; intros k k' Hle Hk'; simpl in *; [lia|].
  destruct k as [|k], k' as [|k']; try lia.
  - lra.
  - apply (proj1 (Forall_forall _ _) Hx), nth_In. lia.
  - apply IH; lia.
Qed.

(** Each row sits at one position of the free list, and its weight is read
    off the sorted usage at that position. *)
Lemma allocation_weighting_rows (s : DNC) :
  length (usage s) = N s ->
  let sorted := sorted_usage_of (usage s) in
  exists a, allocation_weighting s = Some a /\ length a = N s /\
    forall j, (j < N s)%nat ->
      exists k, (k < N s)%nat /\
        nth k (free_list_of (usage s)) 0%nat = j /\
        nth k sorted 0 = nth j (usage s) 0 /\
        nth j a 0 = (1 - nth k sorted 0) * Tf.prod (firstn k sorted).
Proof.
  intros Hlen sorted.
  destruct (allocation_weighting_eval s Hlen) as (a & Ha & Hla & _ & Hnth & _).
  exists a. split; [exact Ha|]. split; [exact Hla|].
  intros j Hj.
  assert (Hin : In j (free_list_of (usage s))).
  { apply (Permutation_in _ (Permutation_sym (free_list_perm (usage s)))).
    apply in_seq. lia. }
  destruct (In_nth _ _ 0%nat Hin) as (k & Hk & Ek).
  rewrite free_list_length in Hk.
  exists k. split; [lia|]. split; [exact Ek|]. split.
  - unfold sorted. rewrite sorted_usage_by, sorted_by_nth
      by (rewrite free_list_length; exact Hk).
    now rewrite Ek.
  - rewrite <- Ek, Hnth by lia.
    rewrite unorder_nth by (rewrite sorted_usage_length; exact Hk).
    fold sorted. ring.
Qed.

(** X1. Whatever the usage values, the allocation weights sum to exactly
    1 minus the product of all usage entries. *)
Theorem allocation_weighting_sum (s : DNC) :
  length (usage s) = N s ->
  exists a, allocation_weighting s = Some a /\
            Tf.sum a = 1 - Tf.prod (usage s).
Proof.
  intros Hlen.
  destruct (allocation_weighting_eval s Hlen) as (a & Ha & _ & _ & _ & Hsum).
  exists a. split; [exact Ha|].
  rewrite Hsum, unorder_sum, (prod_perm _ _ (sorted_usage_perm (usage s))).
  ring.
Qed.

Lemma unorder_step (sorted : vec) k :
  StronglySorted Rle sorted -> Forall in_unit sorted ->
  (S k < length sorted)%nat ->
  (1 - nth (S k) sorted 0) * Tf.prod (firstn (S k) sorted) <=
  (1 - nth k sorted 0) * Tf.prod (firstn k sorted).
Proof.
  intros Hs Hr Hk.
  rewrite prod_firstn_S by lia.
  pose proof (sorted_nth_le _ Hs k (S k) ltac:(lia) Hk) as Hle.
  pose proof (prod_range _ (firstn_range k _ Hr)) as Hp.
  assert (H0 : in_unit (nth k sorted 0))
    by (apply (proj1 (Forall_forall _ _) Hr), nth_In; lia).
  assert (H1 : in_unit (nth (S k) sorted 0))
    by (apply (proj1 (Forall_forall _ _) Hr), nth_In; lia).
  unfold in_unit in *.
  assert (Hq : (1 - nth (S k) sorted 0) * nth k sorted 0 <= 1 - nth k sorted 0)
    by nra.
  nra.
Qed.

Lemma unorder_antitone (sorted : vec) :
  StronglySorted Rle sorted -> Forall in_unit sorted ->
  forall d k, (k + d < length sorted)%nat ->
  (1 - nth (k + d) sorted 0) * Tf.prod (firstn (k + d) sorted) <=
  (1 - nth k sorted 0) * Tf.prod (firstn k sorted).
Proof.
  intros Hs Hr. induction d as [|d IH]; intros k Hk.
  - rewrite Nat.add_0_r. lra.
  - replace (k + S d)%nat with (S (k + d)) in * by lia.
    eapply Rle_trans; [apply unorder_step; assumption|].
    apply IH. lia.
Qed.

(** X2. With usage in [0,1], a row of strictly lower usage never receives a
    smaller allocation weight. *)
Theorem allocation_weighting_monotone (s : DNC) (i j : nat) :
  length (usage s) = N s ->
  Forall in_unit (usage s) ->
  (i < N s)%nat -> (j < N s)%nat ->
  nth i (usage s) 0 < nth j (usage s) 0 ->
  exists a, allocation_weighting s = Some a /\ nth j a 0 <= nth i a 0.
Proof.
  intros Hlen Hu Hi Hj Hlt.
  destruct (allocation_weighting_rows s Hlen) as (a & Ha & _ & Hrows).
  exists a. split; [exact Ha|].
  destruct (Hrows i Hi) as (ki & Hki & _ & Ei & ->).
  destruct (Hrows j Hj) as (kj & Hkj & _ & Ej & ->).
  pose proof (sorted_usage_sorted (usage s)) as Hs.
  pose proof (sorted_usage_range _ Hu) as Hr.
  pose proof (sorted_usage_length (usage s)) as Hsl.
  destruct (Nat.le_gt_cases kj ki) as [Hle|Hgt].
  - pose proof (sorted_nth_le _ Hs kj ki Hle ltac:(lia)). lra.
  - replace kj with (ki + (kj - ki))%nat by lia.
    apply unorder_antitone; try assumption. lia.
Qed.

(** X3. A row whose usage is exactly 1 receives allocation weight 0. *)
Theorem allocation_weighting_full_row (s : DNC) (j : nat) :
  length (usage s) = N s ->
  (j < N s)%nat ->
  nth j (usage s) 0 = 1 ->
  exists a, allocation_weighting s = Some a /\ nth j a 0 = 0.
Proof.
  intros Hlen Hj Hfull.
  destruct (allocation_weighting_rows s Hlen) as (a & Ha & _ & Hrows).
  exists a. split; [exact Ha|].
  destruct (Hrows j Hj) as (k & _ & _ & Ek & ->).
  rewrite Ek, Hfull. ring.
Qed.

Lemma prod_firstn_zero (v : vec) k :
  (0 < length v)%nat -> nth 0 v 0 = 0 -> Tf.prod (firstn (S k) v) = 0.
Proof.
  destruct v as [|x v]; intros Hl Hx; [simpl in Hl; lia|].
  simpl in Hx. rewrite firstn_cons, prod_cons, Hx. ring.
Qed.

(** X4. With non-negative usage and a row of usage 0, the free row at the
    head of the free list takes weight exactly 1 and every other row takes
    weight exactly 0. *)
Theorem allocation_weighting_free_row (s : DNC) (z : nat) :
  length (usage s) = N s ->
  Forall (fun x => 0 <= x) (usage s) ->
  (z < N s)%nat ->
  nth z (usage s) 0 = 0 ->
  exists a i, allocation_weighting s = Some a /\
    i = hd 0%nat (free_list_of (usage s)) /\
    nth i (usage s) 0 = 0 /\
    nth i a 0 = 1 /\
    forall j, (j < N s)%nat -> j <> i -> nth j a 0 = 0.
Proof.
  intros Hlen Hu Hz Hzero.
  destruct (allocation_weighting_rows s Hlen) as (a & Ha & _ & Hrows).
  set (free := free_list_of (usage s)) in *.
  set (sorted := sorted_usage_of (usage s)) in *.
  pose proof (sorted_usage_sorted (usage s)) as Hs. fold sorted in Hs.
  pose proof (sorted_usage_length (usage s)) as Hsl. fold sorted in Hsl.
  assert (Hfl : length free = N s)
    by (unfold free; now rewrite free_list_length).
  assert (Hhd : hd 0%nat free = nth 0 free 0%nat) by (now destruct free).
  assert (Hi : (nth 0 free 0%nat < N s)%nat).
  { rewrite <- Hlen.
    apply (proj1 (Forall_forall _ _) (free_list_bound (usage s))), nth_In.
    fold free. lia. }
  assert (H0 : nth 0 sorted 0 = nth (nth 0 free 0%nat) (usage s) 0).
  { unfold sorted. rewrite sorted_usage_by. apply sorted_by_nth.
    fold free. lia. }
  assert (Hs0 : nth 0 sorted 0 = 0).
  { destruct (Hrows z Hz) as (kz & Hkz & _ & Ez & _).
    pose proof (sorted_nth_le _ Hs 0 kz ltac:(lia) ltac:(lia)) as Hle.
    assert (0 <= nth (nth 0 free 0%nat) (usage s) 0)
      by (apply (proj1 (Forall_forall _ _) Hu), nth_In; lia).
    lra. }
  exists a, (hd 0%nat free). split; [exact Ha|]. split; [reflexivity|].
  rewrite Hhd. split; [now rewrite <- H0|]. split.
  - destruct (Hrows _ Hi) as (k & Hk & Ek & _ & ->).
    assert (k = 0%nat) as ->.
    { apply (proj1 (NoDup_nth free 0%nat) (free_list_NoDup (usage s)));
        [lia | lia | exact Ek]. }
    rewrite Hs0. simpl. ring.
  - intros j Hj Hne.
    destruct (Hrows j Hj) as (k & Hk & Ek & _ & ->).
    destruct k as [|k]; [congruence|].
    rewrite prod_firstn_zero by (assumption || lia). ring.
Qed.

Lemma sort_desc_const (l : list (R * nat)) (x : R) :
  Forall (fun p => fst p = x) l -> Tf.sort_desc l = l.
Proof.
  induction 1 as [|p l Hp Hl IH]; simpl; [reflexivity|].
  rewrite IH. destruct Hl as [|q l Hq _]; simpl; [reflexivity|].
  destruct (Rlt_dec (fst p) (fst q)); [lra | reflexivity].
Qed.

Lemma usage_pairs_const c n :
  Forall (fun p => fst p = -1 * c) (usage_pairs (repeat c n)).
Proof.
  apply Forall_forall; intros [y i] Hp. simpl.
  apply in_combine_l, in_map_iff in Hp as (x & <- & Hx).
  apply repeat_spec in Hx. now subst x.
Qed.

Lemma free_list_const c n : free_list_of (repeat c n) = seq 0 n.
Proof.
  unfold free_list_of. fold (usage_pairs (repeat c n)).
  rewrite (sort_desc_const _ _ (usage_pairs_const c n)).
  unfold usage_pairs. rewrite <- (length_map (fun x => -1 * x)) at 1.
  now rewrite map_snd_combine_seq, length_map, repeat_length.
Qed.

Lemma sorted_usage_const c n : sorted_usage_of (repeat c n) = repeat c n.
Proof.
  rewrite sorted_usage_by, free_list_const. unfold sorted_by.
  pose proof (map_nth_seq (repeat c n)) as H.
  now rewrite repeat_length in H.
Qed.

Lemma prod_firstn_repeat c : forall n k, (k <= n)%nat ->
  Tf.prod (firstn k (repeat c n)) = c ^ k.
Proof.
  induction n as [|n IH]; intros [|k] Hk; try lia; try reflexivity.
  change (repeat c (S n)) with (c :: repeat c n).
  rewrite firstn_cons, prod_cons, IH by lia. reflexivity.
Qed.

Lemma allocation_weighting_const (s : DNC) (c : R) :
  usage s = repeat c (N s) ->
  exists a, allocation_weighting s = Some a /\
    forall k, (k < N s)%nat -> nth k a 0 = (1 - c) * c ^ k.
Proof.
  intros Hu.
  assert (Hlen : length (usage s) = N s) by (rewrite Hu; apply repeat_length).
  destruct (allocation_weighting_eval s Hlen) as (a & Ha & _ & _ & Hnth & _).
  exists a. split; [exact Ha|]. intros k Hk.
  specialize (Hnth k Hk).
  rewrite Hu, free_list_const, seq_nth in Hnth by assumption.
  simpl in Hnth. rewrite Hnth.
  rewrite unorder_nth by (rewrite sorted_usage_length, repeat_length; exact Hk).
  rewrite sorted_usage_const.
  rewrite nth_repeat_lt, prod_firstn_repeat by lia. ring.
Qed.

(** X5. When every row has the same usage c, the tie goes to the lower
    index: row k receives the weight (1 - c) * c^k. *)
Theorem allocation_weighting_equal_usage (s : DNC) (c : R) :
  usage s = repeat c (N s) ->
  exists a, allocation_weighting s = Some a /\
    forall k, (k < N s)%nat -> nth k a 0 = (1 - c) * c ^ k.
Proof. intros Hu. destruct (allocation_weighting_const s c Hu) as (a & H). eauto. Qed.

(** X6. When the usage column has fewer than N rows, [top_k] cannot deliver
    N entries and [allocation_weighting] raises. *)
Theorem allocation_weighting_short_usage (s : DNC) :
  (length (usage s) < N s)%nat -> allocation_weighting s = None.
Proof.
  intros H. unfold allocation_weighting, Tf.top_k. rewrite length_map.
  destruct (Nat.leb_spec (N s) (length (usage s))); [lia | reflexivity].
Qed.

(* ================================================================= *)
(** * Further properties of partition_interface *)

Lemma partition_indices_length (s : DNC) :
  length (partition_indices s) = (R_ s * W s + 3 * W s + 5 * R_ s + 3)%nat.
Proof.
  unfold partition_indices. rewrite !length_app, !repeat_length. simpl. lia.
Qed.

Lemma partition_interface_some_length (s : DNC) (p : Partition) :
  partition_interface s = Some p ->
  length (interface s) = (R_ s * W s + 3 * W s + 5 * R_ s + 3)%nat.
Proof.
  unfold partition_interface, Tf.dynamic_partition. intros H.
  destruct (Nat.eqb_spec (length (interface s)) (length (partition_indices s)))
    as [E|E]; [|discriminate].
  now rewrite E, partition_indices_length.
Qed.

(** Whatever [partition_interface] returns is built from the ten fields. *)
Lemma partition_interface_inv (s : DNC) (p : Partition) :
  partition_interface s = Some p ->
  exists f0 f1 f2 x3 f4 f5 f6 x7 x8 f9,
    interface s = f0 ++ f1 ++ f2 ++ [x3] ++ f4 ++ f5 ++ f6 ++ [x7] ++ [x8] ++ f9 /\
    (length f0 = R_ s * W s /\ length f1 = R_ s /\ length f2 = W s /\
     length f4 = W s /\ length f5 = W s /\ length f6 = R_ s /\
     length f9 = 3 * R_ s)%nat /\
    p = {| k_read := Tf.chunks (R_ s) (W s) f0;
           b_read := map (fun x => 1 + Tf.softplus x) f1;
           k_write := f2;
           b_write := [1 + Tf.softplus x3];
           erase := map Tf.sigmoid f4;
           write_v := f5;
           free_gates := map Tf.sigmoid f6;
           alloc_gate := [Tf.sigmoid x7];
           write_gate := [Tf.sigmoid x8];
           read_modes := Tf.softmax_axis0 (Tf.chunks 3 (R_ s) f9) |}.
Proof.
  intros Hp.
  destruct (partition_interface_fields s (partition_interface_some_length s p Hp))
    as (f0 & f1 & f2 & x3 & f4 & f5 & f6 & x7 & x8 & f9 & E & Hl & Hp').
  exists f0, f1, f2, x3, f4, f5, f6, x7, x8, f9.
  split; [exact E|]. split; [exact Hl|]. congruence.
Qed.

Lemma partition_interface_returns_some (s : DNC) :
  length (interface s) = (R_ s * W s + 3 * W s + 5 * R_ s + 3)%nat ->
  exists p, partition_interface s = Some p.
Proof.
  intros Hlen.
  destruct (partition_interface_fields s Hlen)
    as (f0 & f1 & f2 & x3 & f4 & f5 & f6 & x7 & x8 & f9 & _ & _ & Hp).
  eauto.
Qed.

(** X8. [partition_interface] returns exactly when the interface row has
    R*W + 3*W + 5*R + 3 entries; on any other length it raises. *)
Theorem partition_interface_returns_iff (s : DNC) :
  (exists p, partition_interface s = Some p) <->
  length (interface s) = (R_ s * W s + 3 * W s + 5 * R_ s + 3)%nat.
Proof.
  split.
  - intros (p & Hp). exact (partition_interface_some_length s p Hp).
  - intros Hlen.
    destruct (partition_interface_fields s Hlen)
      as (f0 & f1 & f2 & x3 & f4 & f5 & f6 & x7 & x8 & f9 & _ & _ & Hp).
    eauto.
Qed.

Lemma sigmoid_range x : open_unit (Tf.sigmoid x).
Proof.
  unfold open_unit, Tf.sigmoid. pose proof (exp_pos (- x)) as He.
  split.
  - apply Rdiv_lt_0_compat; lra.
  - apply (Rmult_lt_reg_r (1 + exp (- x))); [lra|].
    unfold Rdiv. rewrite Rmult_assoc, Rinv_l by lra. lra.
Qed.

Lemma sigmoid_gates (raw : vec) : Forall in_unit (map Tf.sigmoid raw).
Proof.
  apply Forall_map, Forall_forall; intros x _.
  destruct (sigmoid_range x). unfold in_unit. lra.
Qed.

(** X9. The erase vector, the free gates, the allocation gate and the write
    gate returned by [partition_interface] all lie between 0 and 1. *)
Theorem partition_interface_gates (s : DNC) (p : Partition) :
  partition_interface s = Some p ->
  Forall in_unit (erase p) /\ Forall in_unit (free_gates p) /\
  Forall in_unit (alloc_gate p) /\ Forall in_unit (write_gate p).
Proof.
  intros Hp.
  destruct (partition_interface_inv s p Hp)
    as (f0 & f1 & f2 & x3 & f4 & f5 & f6 & x7 & x8 & f9 & _ & _ & ->).
  simpl. repeat split; try apply sigmoid_gates.
  - apply (sigmoid_gates [x7]).
  - apply (sigmoid_gates [x8]).
Qed.

Lemma chunks_shape : forall rows cols (v : vec),
  length v = (rows * cols)%nat -> has_shape (Tf.chunks rows cols v) rows cols.
Proof.
  induction rows as [|rows IH]; intros cols v Hv; simpl.
  - split; [reflexivity | constructor].
  - destruct (IH cols (skipn cols v)) as [Hl Hr].
    { rewrite length_skipn. simpl in Hv. lia. }
    split; [simpl; now rewrite Hl|].
    constructor; [|exact Hr].
    rewrite length_firstn. simpl in Hv. lia.
Qed.

Lemma concat_chunks : forall rows cols (v : vec),
  length v = (rows * cols)%nat -> concat (Tf.chunks rows cols v) = v.
Proof.
  induction rows as [|rows IH]; intros cols v Hv; simpl.
  - destruct v; [reflexivity | discriminate].
  - rewrite IH by (rewrite length_skipn; simpl in Hv; lia).
    apply firstn_skipn.
Qed.

(** X10. The read modes come back as a 3 x R tensor in which, for every read
    head, the three mode weights are non-negative and sum to 1. *)
Theorem partition_interface_read_modes (s : DNC) (p : Partition) :
  partition_interface s = Some p ->
  has_shape (read_modes p) 3 (R_ s) /\
  forall j, (j < R_ s)%nat ->
    Forall (fun y => 0 <= y) (Tf.column j (read_modes p)) /\
    Tf.sum (Tf.column j (read_modes p)) = 1.
Proof.
  intros Hp.
  destruct (partition_interface_inv s p Hp)
    as (f0 & f1 & f2 & x3 & f4 & f5 & f6 & x7 & x8 & f9 & _ & Hl & ->).
  destruct Hl as (_ & _ & _ & _ & _ & _ & H9).
  destruct (chunks_shape 3 (R_ s) f9 H9) as [Hrows Hcols].
  simpl read_modes. split.
  - rewrite <- Hrows at 1. now apply softmax_axis0_shape.
  - intros j Hj.
    apply (softmax_axis0_distribution _ (R_ s)); try assumption.
    discriminate.
Qed.

Lemma field_app (a b rest : vec) :
  field (length a) (length b) (a ++ b ++ rest) = b.
Proof.
  unfold field. rewrite skipn_app, skipn_all, Nat.sub_diag. simpl.
  rewrite firstn_app, firstn_all, Nat.sub_diag. simpl. apply app_nil_r.
Qed.

Lemma field_at (a b rest : vec) off len :
  off = length a -> len = length b -> field off len (a ++ b ++ rest) = b.
Proof. intros -> ->. apply field_app. Qed.

(** X11. The keys and the write vector are passed on untransformed: the R
    rows of W read keys, flattened, are the first R*W interface entries, the
    write key is the W entries from offset R*W + R, and the write vector the
    W entries from offset R*W + R + 2*W + 1.  Every returned tensor has the
    shape its comment in the source gives. *)
Theorem partition_interface_shapes (s : DNC) (p : Partition) :
  partition_interface s = Some p ->
  has_shape (k_read p) (R_ s) (W s) /\
  concat (k_read p) = field 0 (R_ s * W s) (interface s) /\
  k_write p = field (R_ s * W s + R_ s) (W s) (interface s) /\
  write_v p = field (R_ s * W s + R_ s + 2 * W s + 1) (W s) (interface s) /\
  (length (b_read p) = R_ s /\ length (k_write p) = W s /\
   length (b_write p) = 1 /\ length (erase p) = W s /\
   length (write_v p) = W s /\ length (free_gates p) = R_ s /\
   length (alloc_gate p) = 1 /\ length (write_gate p) = 1)%nat.
Proof.
  intros Hp.
  destruct (partition_interface_inv s p Hp)
    as (f0 & f1 & f2 & x3 & f4 & f5 & f6 & x7 & x8 & f9 & E & Hl & ->).
  destruct Hl as (H0 & H1 & H2 & H4 & H5 & H6 & H9).
  simpl. rewrite E.
  split; [now apply chunks_shape|].
  split.
  { rewrite concat_chunks by assumption. symmetry.
    apply (field_at [] f0); [reflexivity | lia]. }
  split.
  { rewrite (app_assoc f0 f1). symmetry.
    apply field_at; [rewrite length_app; lia | lia]. }
  split.
  { replace (f0 ++ f1 ++ f2 ++ [x3] ++ f4 ++ f5 ++ f6 ++ [x7] ++ [x8] ++ f9)
      with ((f0 ++ f1 ++ f2 ++ [x3] ++ f4) ++ f5 ++ f6 ++ [x7] ++ [x8] ++ f9)
      by (now rewrite <- !app_assoc).
    symmetry. apply field_at; [rewrite !length_app; simpl; lia | lia]. }
  rewrite !length_map. repeat split; assumption.
Qed.

(* ================================================================= *)
(** * Further properties of content_lookup *)

(** The similarity matrix and its scaling, as [content_lookup] computes
    them before the softmax. *)
Lemma content_lookup_eval (s : DNC) (key : matrix) (strength : vec) (wd : nat) :
  Forall (fun r => length r = wd) (M s) ->
  Forall (fun r => length r = wd) key ->
  length strength = length key \/ length strength = 1%nat ->
  exists sim scaled,
    Tf.matmul_transpose_b (map Tf.l2_normalize (M s))
                          (map Tf.l2_normalize key) = Some sim /\
    mapM (fun row => Tf.broadcast_mul row strength) sim = Some scaled /\
    content_lookup s key strength = Some (Tf.softmax_axis0 scaled) /\
    length scaled = length (M s) /\
    Forall (fun r => length r = length key) scaled.
Proof.
  intros HM Hkey Hstr. unfold content_lookup.
  destruct (matmul_transpose_b_shape _ _ wd (l2_normalize_rows _ _ HM)
              (l2_normalize_rows _ _ Hkey)) as (sim & Hsim & Hn & Hk).
  rewrite length_map in Hn, Hk. rewrite Hsim. simpl.
  destruct (mapM_total (fun row => Tf.broadcast_mul row strength) sim)
    as (scaled & Hscaled).
  { intros row Hrow.
    destruct (broadcast_mul_shape row strength) as (r & Hr & _); [|eauto].
    now rewrite (proj1 (Forall_forall _ _) Hk row Hrow). }
  rewrite Hscaled. simpl.
  exists sim, scaled. repeat split; try reflexivity.
  - exact Hscaled.
  - now rewrite (mapM_length _ _ _ Hscaled).
  - apply (mapM_Forall _ _ _ _ Hscaled). intros row r Hrow Hr.
    destruct (broadcast_mul_shape row strength) as (r' & Hr' & Hlen).
    { now rewrite (proj1 (Forall_forall _ _) Hk row Hrow). }
    rewrite Hr in Hr'. inversion Hr'; subst r'.
    now rewrite Hlen, (proj1 (Forall_forall _ _) Hk row Hrow).
Qed.

Lemma softmax_axis0_entry (x : matrix) (K i j : nat) :
  Forall (fun r => length r = K) x ->
  (i < length x)%nat -> (j < K)%nat ->
  nth j (nth i (Tf.softmax_axis0 x) []) 0 =
  exp (nth j (nth i x []) 0) / Tf.sum (Tf.column j (exps x)).
Proof.
  intros Hx Hi Hj. unfold Tf.softmax_axis0. fold (exps x).
  assert (Hr : length (nth i x []) = K)
    by (apply (proj1 (Forall_forall _ _) Hx), nth_In, Hi).
  rewrite (nth_map_lt _ (exps x) i _ [])
    by (unfold exps; now rewrite length_map).
  assert (He : nth i (exps x) [] = map exp (nth i x []))
    by (unfold exps; now apply nth_map_lt).
  rewrite He.
  rewrite (nth_indexed (fun c y => y / Tf.sum (Tf.column c (exps x)))
                       (map exp (nth i x [])) 0 j)
    by (rewrite length_map; lia).
  simpl. now rewrite (nth_map_lt exp _ j 0 0) by lia.
Qed.

Lemma sum_ge_entry (l : vec) y :
  Forall (fun z => 0 <= z) l -> In y l -> y <= Tf.sum l.
Proof.
  induction 1 as [|z l Hz Hl IH]; simpl; intros Hin; [contradiction|].
  assert (0 <= Tf.sum l).
  { clear IH Hin. induction Hl as [|w l Hw _ IH]; simpl; lra. }
  destruct Hin as [->|Hin]; [lra|]. specialize (IH Hin). lra.
Qed.

(** X12. Every entry of the weighting returned by [content_lookup] lies
    between 0 and 1. *)
Theorem content_lookup_entries (s : DNC) (key : matrix) (strength : vec)
  (wd : nat) :
  M s <> [] ->
  Forall (fun r => length r = wd) (M s) ->
  Forall (fun r => length r = wd) key ->
  length strength = length key \/ length strength = 1%nat ->
  exists w, content_lookup s key strength = Some w /\
    forall i j, (i < length (M s))%nat -> (j < length key)%nat ->
      0 <= nth j (nth i w []) 0 <= 1.
Proof.
  intros Hne HM Hkey Hstr.
  destruct (content_lookup_eval s key strength wd HM Hkey Hstr)
    as (sim & scaled & _ & _ & Hw & Hlen & Hrows).
  eexists. split; [exact Hw|]. intros i j Hi Hj.
  assert (Hx : scaled <> [])
    by (intros ->; simpl in Hlen; destruct (M s); [congruence | discriminate]).
  destruct (softmax_axis0_distribution scaled _ Hrows j Hx Hj) as [Hpos Hsum].
  split.
  - rewrite (softmax_axis0_entry scaled (length key)) by (assumption || lia).
    apply Rlt_le, Rdiv_lt_0_compat; [apply exp_pos|].
    apply sum_pos; [|now apply exp_column_pos with (K := length key)].
    unfold Tf.column, exps. destruct scaled; [congruence | discriminate].
  - rewrite <- Hsum. apply sum_ge_entry; [exact Hpos|].
    unfold Tf.column.
    apply in_map_iff. exists (nth i (Tf.softmax_axis0 scaled) []).
    split; [reflexivity|]. apply nth_In.
    rewrite (proj1 (softmax_axis0_shape scaled _ Hrows)). lia.
Qed.

Lemma dot_zero : forall a b r, Tf.dot a b = Some r -> all_zero a -> r = 0.
Proof.
  induction a as [|x a IH]; intros [|y b] r H Hz; simpl in H;
    try discriminate.
  - now inversion H.
  - destruct (Tf.dot a b) as [r'|] eqn:E; simpl in H; [|discriminate].
    inversion H; subst. inversion Hz; subst.
    rewrite (IH b r' E) by assumption. ring.
Qed.

Lemma l2_normalize_zero (v : vec) : all_zero v -> all_zero (Tf.l2_normalize v).
Proof.
  intros Hv. unfold Tf.l2_normalize, all_zero. apply Forall_map.
  eapply Forall_impl; [|exact Hv].
  intros x ->. simpl. unfold Rdiv. ring.
Qed.

Lemma broadcast_mul_zero (row strength r : vec) :
  Tf.broadcast_mul row strength = Some r -> all_zero row -> all_zero r.
Proof.
  unfold Tf.broadcast_mul, all_zero. intros H Hz.
  assert (Hscale : forall b, Forall (fun x => x = 0) (map (fun x => x * b) row)).
  { intros b. apply Forall_map. eapply Forall_impl; [|exact Hz].
    intros x ->. simpl. ring. }
  destruct (length row =? length strength).
  - inversion H; subst. apply Forall_map, Forall_forall. intros [x b] Hin.
    apply in_combine_l in Hin. simpl.
    rewrite (proj1 (Forall_forall _ _) Hz x Hin). ring.
  - destruct strength as [|b [|b' st]].
    + destruct row as [|x [|x' row]]; try discriminate.
      inversion H; subst. constructor.
    + inversion H; subst. apply Hscale.
    + destruct row as [|x [|x' row]]; try discriminate.
      injection H as <-. apply Forall_cons_iff in Hz as [-> _].
      simpl. repeat (apply Forall_cons; [ring|]).
      apply Forall_map, Forall_forall. intros b0 _. simpl. ring.
Qed.

Lemma sum_ones (l : vec) :
  Forall (fun y => y = 1) l -> Tf.sum l = INR (length l).
Proof.
  induction 1 as [|y l Hy _ IH]; [reflexivity|].
  change (Tf.sum (y :: l)) with (y + Tf.sum l).
  change (length (y :: l)) with (S (length l)).
  rewrite S_INR, IH, Hy. ring.
Qed.

(** X13. On a memory whose rows are all zero, as [__init__] leaves it,
    normalisation gives no NaN and the lookup is uniform: every entry of the
    weighting is 1/N, whatever the keys and strengths. *)
Theorem content_lookup_zero_memory (s : DNC) (key : matrix) (strength : vec)
  (wd : nat) :
  M s <> [] ->
  Forall (fun r => length r = wd) (M s) ->
  Forall all_zero (M s) ->
  Forall (fun r => length r = wd) key ->
  length strength = length key \/ length strength = 1%nat ->
  exists w, content_lookup s key strength = Some w /\
    forall i j, (i < length (M s))%nat -> (j < length key)%nat ->
      nth j (nth i w []) 0 = 1 / INR (length (M s)).
Proof.
  intros Hne HM Hzero Hkey Hstr.
  destruct (content_lookup_eval s key strength wd HM Hkey Hstr)
    as (sim & scaled & Hsim & Hscaled & Hw & Hlen & Hrows).
  assert (Hsz : Forall all_zero sim).
  { unfold Tf.matmul_transpose_b in Hsim.
    apply (mapM_Forall _ _ _ _ Hsim). intros ra row Hra Hrow.
    apply in_map_iff in Hra as (r0 & <- & Hr0).
    apply (mapM_Forall _ _ _ _ Hrow). intros rb r _ Hd.
    apply (dot_zero _ _ _ Hd), l2_normalize_zero.
    exact (proj1 (Forall_forall _ _) Hzero r0 Hr0). }
  assert (Hscz : Forall all_zero scaled).
  { apply (mapM_Forall _ _ _ _ Hscaled). intros row r Hrow Hr.
    apply (broadcast_mul_zero _ _ _ Hr).
    exact (proj1 (Forall_forall _ _) Hsz row Hrow). }
  assert (Hentry : forall r j, In r scaled -> nth j r 0 = 0).
  { intros r j Hr.
    pose proof (proj1 (Forall_forall _ _) Hscz r Hr) as Hz.
    destruct (Nat.lt_ge_cases j (length r)) as [Hj|Hj].
    - exact (proj1 (Forall_forall _ _) Hz _ (nth_In _ _ Hj)).
    - now apply nth_overflow. }
  eexists. split; [exact Hw|]. intros i j Hi Hj.
  rewrite (softmax_axis0_entry scaled (length key)) by (assumption || lia).
  rewrite Hentry by (apply nth_In; lia).
  rewrite exp_0, <- Hlen. f_equal.
  replace (length scaled) with (length (Tf.column j (exps scaled)))
    by (unfold Tf.column, exps; now rewrite !length_map).
  apply sum_ones.
  unfold Tf.column, exps. rewrite map_map. apply Forall_map, Forall_forall.
  intros r Hr.
  rewrite (nth_map_lt exp r j 0 0)
    by (rewrite (proj1 (Forall_forall _ _) Hrows r Hr); exact Hj).
  rewrite (Hentry r j Hr). apply exp_0.
Qed.

Lemma dot_mismatch : forall a b : vec,
  length a <> length b -> Tf.dot a b = None.
Proof.
  induction a as [|x a IH]; intros [|y b] H; simpl in *; try congruence.
  rewrite IH by lia. reflexivity.
Qed.

(** X14. When the keys are not as wide as the memory rows, the matrix
    product has no value and [content_lookup] raises. *)
Theorem content_lookup_width_mismatch (s : DNC) (key : matrix)
  (strength : vec) (wd wk : nat) :
  M s <> [] -> key <> [] ->
  Forall (fun r => length r = wd) (M s) ->
  Forall (fun r => length r = wk) key ->
  wd <> wk ->
  content_lookup s key strength = None.
Proof.
  intros Hm Hk HM Hkey Hne. unfold content_lookup, Tf.matmul_transpose_b.
  destruct (M s) as [|r m]; [congruence|].
  destruct key as [|kr ks]; [congruence|].
  apply Forall_cons_iff in HM as [Hr _].
  apply Forall_cons_iff in Hkey as [Hkr _].
  simpl. rewrite dot_mismatch; [reflexivity|].
  unfold Tf.l2_normalize. rewrite !length_map. lia.
Qed.

(* ================================================================= *)
(** * Further properties of controller and call *)

(** X16. [call] never touches the read and write weightings, the read
    vectors, the three weight matrices nor the dimensions of the object: it
    hands the object back exactly as it received it. *)
Theorem call_leaves_weights (Dense : nat -> vec -> vec)
  (LSTM : nat -> matrix -> vec * vec -> vec * vec * vec)
  (s : DNC) (x : vec) :
  fst (call Dense LSTM x s) = s /\
  W_read (fst (call Dense LSTM x s)) = W_read s /\
  W_write (fst (call Dense LSTM x s)) = W_write s /\
  read_v (fst (call Dense LSTM x s)) = read_v s /\
  W_output (fst (call Dense LSTM x s)) = W_output s /\
  W_interface (fst (call Dense LSTM x s)) = W_interface s /\
  W_read_out (fst (call Dense LSTM x s)) = W_read_out s /\
  N (fst (call Dense LSTM x s)) = N s /\
  W (fst (call Dense LSTM x s)) = W s /\
  R_ (fst (call Dense LSTM x s)) = R_ s /\
  output_dim (fst (call Dense LSTM x s)) = output_dim s /\
  interface_dim (fst (call Dense LSTM x s)) = interface_dim s /\
  controller_dim (fst (call Dense LSTM x s)) = controller_dim s.
Proof.
  rewrite call_raises_at. simpl. repeat split; reflexivity.
Qed.

(** X20. [controller] raises on every object and every input, before it
    assigns the hidden state: the shape check of the Concatenate layer
    raises ValueError when the read vectors do not have exactly one row,
    and otherwise the keyword [axis] given to the layer call raises
    TypeError.  The object is left as it was. *)
Theorem controller_always_raises (Dense : nat -> vec -> vec)
  (LSTM : nat -> matrix -> vec * vec -> vec * vec * vec)
  (x : vec) (s : DNC) :
  controller Dense LSTM x s =
  (s, inl (if length (read_v s) =? 1 then TypeError else ValueError)) /\
  h (fst (controller Dense LSTM x s)) = h s /\
  c (fst (controller Dense LSTM x s)) = c s.
Proof.
  rewrite controller_raises. repeat split; reflexivity.
Qed.

(** X17. The tensors that [partition_interface] returns are the ones
    [content_lookup] accepts: on a non-empty memory of W-wide rows, the R
    read keys with the R read strengths give an N x R weighting, and the
    write key with the write strength an N x 1 weighting. *)
Theorem partition_feeds_content_lookup (s : DNC) (p : Partition) :
  M s <> [] ->
  Forall (fun r => length r = W s) (M s) ->
  partition_interface s = Some p ->
  exists w_r w_w,
    content_lookup s (k_read p) (b_read p) = Some w_r /\
    has_shape w_r (length (M s)) (R_ s) /\
    content_lookup s [k_write p] (b_write p) = Some w_w /\
    has_shape w_w (length (M s)) 1.
Proof.
  intros Hne HM Hp.
  destruct (partition_interface_inv s p Hp)
    as (f0 & f1 & f2 & x3 & f4 & f5 & f6 & x7 & x8 & f9 & _ & Hl & ->).
  destruct Hl as (H0 & H1 & H2 & _).
  destruct (chunks_shape (R_ s) (W s) f0 H0) as [Hkr Hkc].
  simpl.
  destruct (content_lookup_eval s (Tf.chunks (R_ s) (W s) f0)
              (map (fun x => 1 + Tf.softplus x) f1) (W s) HM Hkc)
    as (_ & scaled & _ & _ & Hw & Hlen & Hrows).
  { left. now rewrite length_map, Hkr. }
  destruct (content_lookup_eval s [f2] [1 + Tf.softplus x3] (W s) HM)
    as (_ & scaled' & _ & _ & Hw' & Hlen' & Hrows').
  { now constructor. }
  { now left. }
  rewrite Hkr in Hrows. simpl in Hrows'.
  exists (Tf.softmax_axis0 scaled), (Tf.softmax_axis0 scaled').
  split; [exact Hw|]. split.
  { rewrite <- Hlen. now apply softmax_axis0_shape. }
  split; [exact Hw'|].
  rewrite <- Hlen'. now apply softmax_axis0_shape.
Qed.

(* ================================================================= *)
(** * The further properties on sample objects *)

Lemma allocation_weighting_sum_witness :
  exists a, allocation_weighting used_sample = Some a /\
            Tf.sum a = 1 - Tf.prod (usage used_sample).
Proof. apply allocation_weighting_sum. reflexivity. Defined.

Lemma allocation_weighting_monotone_witness :
  exists a, allocation_weighting used_sample = Some a /\
            nth 0 a 0 <= nth 1 a 0.
Proof.
  apply (allocation_weighting_monotone used_sample 1 0);
    [reflexivity | exact used_sample_in_unit | simpl; lia | simpl; lia
    | simpl; lra].
Defined.

Lemma allocation_weighting_full_row_witness :
  exists a, allocation_weighting free_row_sample = Some a /\ nth 0 a 0 = 0.
Proof.
  apply (allocation_weighting_full_row free_row_sample 0);
    [reflexivity | simpl; lia | reflexivity].
Defined.

Lemma allocation_weighting_free_row_witness :
  exists a i, allocation_weighting free_row_sample = Some a /\
              nth i (usage free_row_sample) 0 = 0 /\ nth i a 0 = 1.
Proof.
  destruct (allocation_weighting_free_row free_row_sample 1)
    as (a & i & Ha & _ & Hu & Hi & _);
    [reflexivity
    | simpl; repeat (apply Forall_cons; [lra|]); apply Forall_nil
    | simpl; lia | reflexivity |].
  exists a, i. repeat split; assumption.
Defined.

Lemma allocation_weighting_equal_usage_witness :
  exists a, allocation_weighting even_sample = Some a /\
    forall k, (k < 2)%nat -> nth k a 0 = (1 - 1 / 4) * (1 / 4) ^ k.
Proof. apply (allocation_weighting_equal_usage even_sample). reflexivity. Defined.

Lemma allocation_weighting_short_usage_witness :
  allocation_weighting short_sample = None.
Proof. apply allocation_weighting_short_usage. simpl. lia. Defined.

Lemma sample_partition : exists p, partition_interface sample = Some p.
Proof. apply partition_interface_returns_some. reflexivity. Defined.

Lemma partition_interface_gates_witness :
  exists p, partition_interface sample = Some p /\
            Forall in_unit (erase p) /\ Forall in_unit (write_gate p).
Proof.
  destruct sample_partition as (p & Hp). exists p. split; [exact Hp|].
  destruct (partition_interface_gates sample p Hp) as (He & _ & _ & Hw).
  split; assumption.
Defined.

Lemma partition_interface_read_modes_witness :
  exists p, partition_interface sample = Some p /\
            Tf.sum (Tf.column 0 (read_modes p)) = 1.
Proof.
  destruct sample_partition as (p & Hp). exists p. split; [exact Hp|].
  destruct (partition_interface_read_modes sample p Hp) as (_ & Hc).
  apply (Hc 0%nat). simpl. lia.
Defined.

Lemma partition_interface_shapes_witness :
  exists p, partition_interface sample = Some p /\
            k_write p = field 2 1 (interface sample).
Proof.
  destruct sample_partition as (p & Hp). exists p. split; [exact Hp|].
  destruct (partition_interface_shapes sample p Hp) as (_ & _ & Hk & _).
  exact Hk.
Defined.

Lemma sample_memory_rows : Forall (fun r => length r = 1%nat) (M sample).
Proof. simpl. repeat (apply Forall_cons; [reflexivity|]). apply Forall_nil. Defined.

Lemma sample_memory_zero : Forall all_zero (M sample).
Proof.
  simpl. repeat (apply Forall_cons;
                 [repeat (apply Forall_cons; [reflexivity|]); apply Forall_nil|]).
  apply Forall_nil.
Defined.

Lemma sample_key_rows : Forall (fun r => length r = 1%nat) [[1]].
Proof. repeat (apply Forall_cons; [reflexivity|]). apply Forall_nil. Defined.

Lemma sample_memory_nonempty : M sample <> [].
Proof. discriminate. Defined.

Lemma content_lookup_entries_witness :
  exists w, content_lookup sample [[1]] [1] = Some w /\
            0 <= nth 0 (nth 1 w []) 0 <= 1.
Proof.
  destruct (content_lookup_entries sample [[1]] [1] 1 sample_memory_nonempty
              sample_memory_rows sample_key_rows (or_introl eq_refl))
    as (w & Hw & He).
  exists w. split; [exact Hw|]. apply He; simpl; lia.
Defined.

Lemma content_lookup_zero_memory_witness :
  exists w, content_lookup sample [[1]] [1] = Some w /\
            nth 0 (nth 1 w []) 0 = 1 / INR 2.
Proof.
  destruct (content_lookup_zero_memory sample [[1]] [1] 1
              sample_memory_nonempty sample_memory_rows sample_memory_zero
              sample_key_rows (or_introl eq_refl))
    as (w & Hw & He).
  exists w. split; [exact Hw|]. apply (He 1%nat 0%nat); simpl; lia.
Defined.

Lemma content_lookup_width_mismatch_witness :
  content_lookup sample wide_key [1] = None.
Proof.
  apply (content_lookup_width_mismatch sample wide_key [1] 1 2);
    [exact sample_memory_nonempty | discriminate | exact sample_memory_rows
    | repeat (apply Forall_cons; [reflexivity|]); apply Forall_nil | lia].
Defined.

Lemma partition_feeds_content_lookup_witness :
  exists p w_r w_w,
    partition_interface sample = Some p /\
    content_lookup sample (k_read p) (b_read p) = Some w_r /\
    content_lookup sample [k_write p] (b_write p) = Some w_w.
Proof.
  destruct sample_partition as (p & Hp).
  destruct (partition_feeds_content_lookup sample p sample_memory_nonempty
              sample_memory_rows Hp) as (w_r & w_w & Hr & _ & Hw & _).
  exists p, w_r, w_w. repeat split; assumption.
Defined.

(* ================================================================= *)
(** * The similarity matrix *)

Lemma sumsq_nonneg (v : vec) : 0 <= sumsq v.
Proof.
  unfold sumsq. induction v as [|x v IH]; simpl; [lra|]. nra.
Qed.

Lemma sumsq_scaled (v : vec) k :
  sumsq (map (fun x => x / k) v) = sumsq v * (/ k * / k).
Proof.
  unfold sumsq. induction v as [|x v IH]; simpl; [ring|].
  rewrite IH. unfold Rdiv. ring.
Qed.

Lemma l2_normalize_sumsq (v : vec) : sumsq (Tf.l2_normalize v) <= 1.
Proof.
  unfold Tf.l2_normalize. rewrite sumsq_scaled.
  set (m := Rmax (sumsq v) Tf.epsilon).
  fold (sumsq v). fold m.
  assert (Heps : 0 < Tf.epsilon) by (unfold Tf.epsilon; lra).
  assert (Hm : 0 < m) by (unfold m; pose proof (Rmax_r (sumsq v) Tf.epsilon); lra).
  assert (Hv : sumsq v <= m) by apply Rmax_l.
  rewrite <- Rinv_mult, sqrt_sqrt by lra.
  apply (Rmult_le_reg_r m); [exact Hm|].
  rewrite Rmult_assoc, Rinv_l by lra. lra.
Qed.

Lemma dot_bound : forall a b r, Tf.dot a b = Some r ->
  - ((sumsq a + sumsq b) / 2) <= r <= (sumsq a + sumsq b) / 2.
Proof.
  unfold sumsq.
  induction a as [|x a IH]; intros [|y b] r H; simpl in H; try discriminate.
  - inversion H; subst. simpl. lra.
  - destruct (Tf.dot a b) as [r'|] eqn:E; simpl in H; [|discriminate].
    inversion H; subst. specialize (IH b r' E). simpl.
    change (fold_right Rplus 0 (map (fun x => x * x) a))
      with (Tf.sum (map (fun x => x * x) a)) in *.
    change (fold_right Rplus 0 (map (fun x => x * x) b))
      with (Tf.sum (map (fun x => x * x) b)) in *.
    set (sa := Tf.sum (map (fun x => x * x) a)) in *.
    set (sb := Tf.sum (map (fun x => x * x) b)) in *.
    pose proof (Rle_0_sqr (x - y)) as H1.
    pose proof (Rle_0_sqr (x + y)) as H2.
    unfold Rsqr in H1, H2. lra.
Qed.

(** X19. The similarity matrix that [content_lookup] hands to the softmax has
    all its entries between -1 and 1, for every memory and every key,
    all-zero rows included. *)
Theorem similarity_bounded (s : DNC) (key : matrix) (strength : vec)
  (sim : matrix) :
  similarity s key = Some sim ->
  Forall (Forall (fun x => -1 <= x <= 1)) sim /\
  content_lookup s key strength =
    (scaled <- mapM (fun row => Tf.broadcast_mul row strength) sim ;;
     Some (Tf.softmax_axis0 scaled)).
Proof.
  intros Hsim. split.
  - unfold similarity, Tf.matmul_transpose_b in Hsim.
    apply (mapM_Forall _ _ _ _ Hsim). intros ra row Hra Hrow.
    apply in_map_iff in Hra as (r0 & <- & _).
    apply (mapM_Forall _ _ _ _ Hrow). intros rb r Hrb Hdot.
    apply in_map_iff in Hrb as (k0 & <- & _).
    pose proof (dot_bound _ _ _ Hdot) as Hb.
    pose proof (l2_normalize_sumsq r0). pose proof (l2_normalize_sumsq k0).
    lra.
  - unfold content_lookup. unfold similarity in Hsim. now rewrite Hsim.
Qed.

Lemma sample_similarity : exists sim, similarity sample [[1]] = Some sim.
Proof.
  destruct (matmul_transpose_b_shape (map Tf.l2_normalize (M sample))
              (map Tf.l2_normalize [[1]]) 1
              (l2_normalize_rows _ _ sample_memory_rows)
              (l2_normalize_rows _ _ sample_key_rows)) as (sim & H & _).
  exists sim. exact H.
Defined.

Lemma similarity_bounded_witness :
  exists sim, similarity sample [[1]] = Some sim /\
              Forall (Forall (fun x => -1 <= x <= 1)) sim.
Proof.
  destruct sample_similarity as (sim & H). exists sim. split; [exact H|].
  exact (proj1 (similarity_bounded sample [[1]] [1] sim H)).
Defined.

